(** * extract_translations.py: translation-key reconciliation

    A shallow embedding of the script [extract_translations.py] of
    quizmaster-pro.  The script reads an HTML file and a JavaScript file,
    collects the keys named by [data-translate] and
    [data-translate-placeholder] attributes, collects for each of the three
    languages [en], [es] and [pl] the keys of the language's table, and
    prints the keys the table lacks.

    Python [str] values are sequences of code points; a text is a list of
    [N].  The regular expressions of the script are values of a small regex
    type covering the constructs the script uses, run by a backtracking
    matcher with Python's leftmost, greedy semantics. *)

From Stdlib Require Import Arith NArith List Bool Lia String Ascii.
From Stdlib Require Import Sorting.Sorted Sorting.Permutation.
Import ListNotations.

Local Open Scope N_scope.
Local Open Scope list_scope.

(** ** Texts *)

Definition char := N.
Definition str := list char.

Definition of_string (s : string) : str :=
  map N_of_ascii (list_ascii_of_string s).

Definition str_eq_dec : forall a b : str, {a = b} + {a <> b} :=
  list_eq_dec N.eq_dec.

(** The characters the patterns name. *)
Definition dquote : char := 34.
Definition colon : char := 58.
Definition lbrace : char := 123.
Definition rbrace : char := 125.

(** ** Character classes of [re] on [str] patterns

    [\s] on a [str] pattern is Unicode white space ([str.isspace]). *)
Definition is_space (c : char) : bool :=
  ((9 <=? c) && (c <=? 13)) || ((28 <=? c) && (c <=? 32))
  || (c =? 133) || (c =? 160) || (c =? 5760)
  || ((8192 <=? c) && (c <=? 8202))
  || (c =? 8232) || (c =? 8233) || (c =? 8239) || (c =? 8287)
  || (c =? 12288).

(** [\w] on ASCII: letters, digits and the underscore. *)
Definition ascii_word (c : char) : bool :=
  ((48 <=? c) && (c <=? 57)) || ((65 <=? c) && (c <=? 90))
  || ((97 <=? c) && (c <=? 122)) || (c =? 95).

(** ** The regex fragment of the script

    Every pattern of the script is a sequence of single-character atoms
    (a literal or a class), each taken once, or under a greedy [*] or [+];
    one [+] atom is the capture group. *)

Inductive quant := One | Star | Plus.

Record item := Item { cls : char -> bool; rep : quant; grp : bool }.

Definition regex := list item.

Definition lit_char (c : char) : item := Item (N.eqb c) One false.

Definition lit (s : string) : regex := map lit_char (of_string s).

Definition keep (g : bool) (c : char) (cap : str) : str :=
  if g then c :: cap else cap.

(** Greedy repetition of a class [p]: take the longest run first and give
    characters back one at a time while the rest of the pattern, [k],
    fails. *)
Fixpoint greedy (p : char -> bool) (g : bool)
    (k : str -> option (str * str)) (s : str) : option (str * str) :=
  match s with
  | c :: s' =>
      if p c then
        match greedy p g k s' with
        | Some (cap, rest) => Some (keep g c cap, rest)
        | None => k s
        end
      else k s
  | [] => k s
  end.

(** [match_here r s]: match [r] at the start of [s]; the result is the text
    of the capture group and the text left after the match. *)
Fixpoint match_here (r : regex) (s : str) : option (str * str) :=
  match r with
  | [] => Some ([], s)
  | it :: r' =>
      match rep it with
      | One =>
          match s with
          | c :: s' =>
              if cls it c then
                match match_here r' s' with
                | Some (cap, rest) => Some (keep (grp it) c cap, rest)
                | None => None
                end
              else None
          | [] => None
          end
      | Star => greedy (cls it) (grp it) (match_here r') s
      | Plus =>
          match s with
          | c :: s' =>
              if cls it c then
                match greedy (cls it) (grp it) (match_here r') s' with
                | Some (cap, rest) => Some (keep (grp it) c cap, rest)
                | None => None
                end
              else None
          | [] => None
          end
      end
  end.

(** [re.search]: the match at the leftmost position that has one. *)
Fixpoint search (r : regex) (s : str) : option (str * str) :=
  match match_here r s with
  | Some m => Some m
  | None =>
      match s with
      | [] => None
      | _ :: s' => search r s'
      end
  end.

(** [re.findall] with one group: the group of every match, left to right,
    the matches not overlapping.  [skip] counts the characters of the last
    match still to be passed over. *)
Fixpoint findall_from (r : regex) (skip : nat) (s : str) : list str :=
  match skip with
  | S n =>
      match s with
      | [] => []
      | _ :: s' => findall_from r n s'
      end
  | O =>
      match match_here r s with
      | Some (cap, rest) =>
          cap :: match s with
                 | [] => []
                 | _ :: s' =>
                     findall_from r
                       (List.length s - List.length rest - 1)%nat s'
                 end
      | None =>
          match s with
          | [] => []
          | _ :: s' => findall_from r O s'
          end
      end
  end.

Definition findall (r : regex) (s : str) : list str := findall_from r O s.

(** ** Required keys (lines 8-18) *)

Definition not_char (c x : char) : bool := negb (x =? c).

(** [translate_pattern], line 9: the text [data-translate=], a double
    quote, the group "one or more characters other than a double quote",
    and a double quote. *)
Definition translate_pattern : regex :=
  lit "data-translate=" ++ [lit_char dquote]
  ++ [Item (not_char dquote) Plus true] ++ [lit_char dquote].

(** [placeholder_pattern], line 13: the same with the attribute name
    [data-translate-placeholder]. *)
Definition placeholder_pattern : regex :=
  lit "data-translate-placeholder=" ++ [lit_char dquote]
  ++ [Item (not_char dquote) Plus true] ++ [lit_char dquote].

Definition translate_matches (html_content : str) : list str :=
  findall translate_pattern html_content.

Definition placeholder_matches (html_content : str) : list str :=
  findall placeholder_pattern html_content.

(** [set(translate_matches + placeholder_matches)]: the elements without
    repetition.  The order a Python set is walked in is not fixed; the only
    use of [all_keys] is [sorted(all_keys)], which does not depend on it. *)
Definition all_keys (html_content : str) : list str :=
  nodup str_eq_dec
    (translate_matches html_content ++ placeholder_matches html_content).

(** [str] comparison: lexicographic on code points. *)
Fixpoint str_leb (a b : str) : bool :=
  match a, b with
  | [], _ => true
  | _ :: _, [] => false
  | x :: a', y :: b' =>
      if x <? y then true else if y <? x then false else str_leb a' b'
  end.

Fixpoint insert (k : str) (l : list str) : list str :=
  match l with
  | [] => [k]
  | h :: t => if str_leb k h then k :: l else h :: insert k t
  end.

(** [sorted(...)]: the ascending arrangement of the elements. *)
Definition sorted (l : list str) : list str := fold_right insert [] l.

Definition sorted_keys (html_content : str) : list str :=
  sorted (all_keys html_content).

(** The order as propositions; [str_lt] is the strict order. *)
Definition str_le (a b : str) : Prop := str_leb a b = true.
Definition str_lt (a b : str) : Prop := str_le a b /\ a <> b.

(** [key not in keys] *)
Definition absent (keys : list str) (key : str) : bool :=
  if in_dec str_eq_dec key keys then false else true.

(** ** Language tables (lines 33-97)

    The script repeats one stanza for [en], [es] and [pl]; the stanzas
    differ in the label of the pattern and in the wording of the messages. *)

Inductive locale := en | es | pl.

Definition label (l : locale) : string :=
  match l with
  | en => "en"
  | es => "es"
  | pl => "pl"
  end.

(** One line of output per [print]; the wording is left out, the values
    printed are kept. *)
Inductive line :=
| KeysHeader                               (* line 20 *)
| KeyLine (key : str)                      (* lines 22, 51, 73, 95 *)
| Total (n : nat)                          (* line 24 *)
| Checking                                 (* line 27 *)
| KeysFound (l : locale) (n : nat)         (* lines 40, 62, 84 *)
| MissingHeader (l : locale) (n : nat)     (* lines 49, 71, 93 *)
| AllTranslated (l : locale).              (* lines 53, 75, 97 *)

(** What a stanza works out for its language: [len(en_keys)], the list
    [missing_keys], and which branch of [if missing_keys:] it takes
    ([complete] is the [else] branch, which prints that all keys are
    translated). *)
Record locale_report := Report {
  defined_count : nat;
  missing : list str;
  complete : bool
}.

Section Tables.

(** [\w] beyond ASCII follows the Unicode character database, which is
    Python's and not the script's: its alphanumeric test is a parameter. *)
Variable unicode_alnum : char -> bool.

Definition is_word (c : char) : bool :=
  if c <? 128 then ascii_word c else unicode_alnum c.

(** [en_pattern], [es_pattern], [pl_pattern] (lines 34, 56, 78): the label,
    a colon, [\s*], an opening brace, the group "one or more characters
    other than a closing brace", and a closing brace.  [re.DOTALL] changes
    the dot only, and the patterns have none. *)
Definition loc_pattern (l : locale) : regex :=
  lit (label l) ++ [lit_char colon]
  ++ [Item is_space Star false] ++ [lit_char lbrace]
  ++ [Item (not_char rbrace) Plus true] ++ [lit_char rbrace].

Definition en_pattern : regex := loc_pattern en.
Definition es_pattern : regex := loc_pattern es.
Definition pl_pattern : regex := loc_pattern pl.

(** [en_match]: the group and the text after the match, or [None]. *)
Definition loc_match (l : locale) (script_content : str)
  : option (str * str) :=
  search (loc_pattern l) script_content.

(** [en_content = en_match.group(1)] *)
Definition loc_content (l : locale) (script_content : str) : option str :=
  option_map fst (loc_match l script_content).

(** The pattern of lines 38, 60, 82: the group [\w+], then a colon. *)
Definition key_pattern : regex := [Item is_word Plus true; lit_char colon].

(** [en_keys]: a list, in the order of the text, repetitions kept. *)
Definition content_keys (content : str) : list str :=
  findall key_pattern content.

Definition loc_keys (l : locale) (script_content : str)
  : option (list str) :=
  option_map content_keys (loc_content l script_content).

(** Lines 43-46: the loop that appends to [missing_keys] every key of
    [sorted_keys] that is [not in] the language's keys. *)
Definition missing_keys (sorted_keys keys : list str) : list str :=
  fold_left
    (fun acc key => if absent keys key then acc ++ [key] else acc)
    sorted_keys [].

(** The body of [if en_match:]; nothing is computed when there is no
    match. *)
Definition check_locale (l : locale) (sorted_keys : list str)
    (script_content : str) : option locale_report :=
  match loc_match l script_content with
  | Some (content, _) =>
      let keys := content_keys content in
      let missing_keys := missing_keys sorted_keys keys in
      Some (Report (List.length keys) missing_keys
              match missing_keys with
              | [] => true
              | _ :: _ => false
              end)
  | None => None
  end.

(** The lines a stanza prints. *)
Definition print_locale (l : locale) (r : option locale_report)
  : list line :=
  match r with
  | Some r =>
      KeysFound l (defined_count r)
      :: (if complete r then [AllTranslated l]
          else MissingHeader l (List.length (missing r))
               :: map KeyLine (missing r))
  | None => []
  end.

(** The whole script, from the two texts read to the lines printed. *)
Definition main (html_content script_content : str) : list line :=
  let sorted_keys := sorted_keys html_content in
  KeysHeader :: map KeyLine sorted_keys
  ++ [Total (List.length sorted_keys); Checking]
  ++ print_locale en (check_locale en sorted_keys script_content)
  ++ print_locale es (check_locale es sorted_keys script_content)
  ++ print_locale pl (check_locale pl sorted_keys script_content).

End Tables.

(** ** Sample texts *)

Definition quoted (s : string) : str := dquote :: of_string s ++ [dquote].

Definition sample_html : str :=
  of_string "<h1 data-translate=" ++ quoted "title"
  ++ of_string "></h1><input data-translate-placeholder=" ++ quoted "search"
  ++ of_string ">".

Definition sample_script : str :=
  of_string "const translations = { en: { title: " ++ quoted "Hello"
  ++ of_string " } };".

(** A table with a nested object: the first closing brace is the inner
    one. *)
Definition nested_script : str :=
  of_string "en: { a: { x: 1 }, b: 2 }".

(** A table that writes one key twice. *)
Definition dup_script : str :=
  of_string "en: { a: 1, a: 2 }".

(** Two tables; the Spanish one has a key that ends in the English
    label. *)
Definition es_block : str := of_string " token: { b: 2 ".

Definition cross_script : str :=
  of_string "es: {" ++ es_block ++ of_string "} en: { a: 1 }".

(** A page whose key has a hyphen. *)
Definition hyphen_html : str :=
  of_string "<p data-translate=" ++ quoted "nav-title" ++ of_string ">".

(** A page whose first attribute never closes its quote; the next quote
    of the page is the one that opens the value of the second attribute. *)
Definition unclosed_html : str :=
  of_string "<p data-translate=" ++ dquote
  :: of_string "abc><q data-translate=" ++ quoted "x" ++ of_string ">".

(** An instance of the Unicode test, for running the script on ASCII
    texts. *)
Definition no_alnum (c : char) : bool := false.

(** * Properties *)

(** ** The matcher *)

Lemma keep_false (c : char) (cap : str) : keep false c cap = cap.
Proof. reflexivity. Qed.

Lemma keep_true (c : char) (cap : str) : keep true c cap = c :: cap.
Proof. reflexivity. Qed.

(** A literal prefix of a pattern matches that text and nothing else. *)
Lemma match_here_lit_app (l : str) (r : regex) (s : str) :
  match_here (map lit_char l ++ r) (l ++ s) = match_here r s.
Proof.
  induction l as [|c l IH]; simpl; [reflexivity|].
  rewrite N.eqb_refl, IH. destruct (match_here r s) as [[cap rest]|]; reflexivity.
Qed.

Lemma match_here_lit_inv (l : str) (r : regex) (s : str) (m : str * str) :
  match_here (map lit_char l ++ r) s = Some m ->
  exists s', s = l ++ s' /\ match_here r s' = Some m.
Proof.
  revert s. induction l as [|c l IH]; intros s H; simpl in *.
  - exists s. split; [reflexivity|exact H].
  - destruct s as [|x s]; [discriminate|].
    destruct (N.eqb_spec c x) as [->|]; [|discriminate].
    destruct (match_here (map lit_char l ++ r) s) as [[cap rest]|] eqn:E;
      [|discriminate].
    injection H as <-.
    destruct (IH _ E) as (s' & -> & Hs'). exists s'. split; [reflexivity|].
    exact Hs'.
Qed.

(** What a greedy repetition took is a run of the class, and the rest of
    the pattern matched after the run. *)
Lemma greedy_inv (p : char -> bool) (g : bool) k (s cap rest : str) :
  greedy p g k s = Some (cap, rest) ->
  exists run s' cap',
    s = run ++ s' /\ Forall (fun c => p c = true) run /\
    k s' = Some (cap', rest) /\ cap = (if g then run ++ cap' else cap').
Proof.
  revert cap rest. induction s as [|c s IH]; intros cap rest H; simpl in H.
  - exists [], [], cap. repeat split; [constructor|exact H|destruct g; reflexivity].
  - destruct (p c) eqn:Hp.
    + destruct (greedy p g k s) as [[cap0 rest0]|] eqn:E.
      * injection H as <- <-.
        destruct (IH _ _ eq_refl) as (run & s' & cap' & -> & Hrun & Hk & ->).
        exists (c :: run), s', cap'. repeat split; auto.
        destruct g; reflexivity.
      * exists [], (c :: s), cap. repeat split;
          [constructor|exact H|destruct g; reflexivity].
    + exists [], (c :: s), cap. repeat split;
        [constructor|exact H|destruct g; reflexivity].
Qed.

(** A run of the class followed by a match of the rest of the pattern is
    taken whole. *)
Lemma greedy_run (p : char -> bool) (g : bool) k (run s' cap' rest : str) :
  Forall (fun c => p c = true) run ->
  k s' = Some (cap', rest) ->
  (forall c t, s' = c :: t -> p c = false) ->
  greedy p g k (run ++ s') = Some (if g then run ++ cap' else cap', rest).
Proof.
  intros Hrun Hk Hstop. induction Hrun as [|c run Hc _ IH]; simpl.
  - destruct s' as [|c t]; simpl.
    + rewrite Hk. destruct g; reflexivity.
    + rewrite (Hstop c t eq_refl), Hk. destruct g; reflexivity.
  - rewrite Hc, IH. destruct g; reflexivity.
Qed.

(** The text left after a match is a suffix of the text matched. *)
Lemma greedy_suffix (p : char -> bool) (g : bool) k (s cap rest : str) :
  (forall s0 cap0 rest0, k s0 = Some (cap0, rest0) -> exists m, s0 = m ++ rest0) ->
  greedy p g k s = Some (cap, rest) -> exists m, s = m ++ rest.
Proof.
  intros Hk H. destruct (greedy_inv _ _ _ _ _ _ H) as (run & s' & cap' & -> & _ & Hk' & _).
  destruct (Hk _ _ _ Hk') as (m & ->). exists (run ++ m). now rewrite app_assoc.
Qed.

Lemma match_here_suffix (r : regex) (s cap rest : str) :
  match_here r s = Some (cap, rest) -> exists m, s = m ++ rest.
Proof.
  revert s cap rest. induction r as [|it r IH]; intros s cap rest H; simpl in H.
  - injection H as _ <-. now exists [].
  - destruct (rep it).
    + destruct s as [|c s]; [discriminate|]. destruct (cls it c); [|discriminate].
      destruct (match_here r s) as [[cap0 rest0]|] eqn:E; [|discriminate].
      injection H as _ <-. destruct (IH _ _ _ E) as (m & ->). now exists (c :: m).
    + eapply greedy_suffix; [|exact H]. intros; eapply IH; eassumption.
    + destruct s as [|c s]; [discriminate|]. destruct (cls it c); [|discriminate].
      destruct (greedy (cls it) (grp it) (match_here r) s) as [[cap0 rest0]|] eqn:E;
        [|discriminate].
      injection H as _ <-.
      destruct (greedy_suffix _ _ _ _ _ _ (fun s0 c0 r0 => IH s0 c0 r0) E) as (m & ->).
      now exists (c :: m).
Qed.

(** ** [search] and [findall] *)

(** [search] returns the match at a position before which no position has
    a match. *)
Lemma search_inv (r : regex) (s : str) (m : str * str) :
  search r s = Some m ->
  exists pre t,
    s = pre ++ t /\ match_here r t = Some m /\
    forall p q, pre = p ++ q -> q <> [] -> match_here r (q ++ t) = None.
Proof.
  induction s as [|c s IH]; simpl.
  - destruct (match_here r []) as [m0|] eqn:E; [|discriminate].
    intros [= <-]. exists [], []. repeat split; auto.
    intros p q Hpq Hq. destruct p, q; try discriminate. now elim Hq.
  - destruct (match_here r (c :: s)) as [m0|] eqn:E.
    + intros [= <-]. exists [], (c :: s). repeat split; auto.
      intros p q Hpq Hq. destruct p, q; try discriminate. now elim Hq.
    + intros H. destruct (IH H) as (pre & t & -> & Ht & Hpre).
      exists (c :: pre), t. repeat split; auto.
      intros p q Hpq Hq. destruct p as [|x p]; simpl in Hpq.
      * subst q. exact E.
      * injection Hpq as _ Hpq. eauto.
Qed.

Lemma search_none (r : regex) (s : str) :
  search r s = None -> forall pre t, s = pre ++ t -> match_here r t = None.
Proof.
  induction s as [|c s IH]; simpl.
  - destruct (match_here r []) eqn:E; [discriminate|].
    intros _ pre t H. destruct pre, t; try discriminate. exact E.
  - destruct (match_here r (c :: s)) eqn:E; [discriminate|].
    intros H pre t Hs. destruct pre as [|x pre]; simpl in Hs.
    + now subst t.
    + injection Hs as _ Hs. eauto.
Qed.

Lemma search_intro (r : regex) (pre t : str) (m : str * str) :
  (forall p q, pre = p ++ q -> q <> [] -> match_here r (q ++ t) = None) ->
  match_here r t = Some m ->
  search r (pre ++ t) = Some m.
Proof.
  intros Hpre Ht. induction pre as [|c pre IH]; simpl.
  - destruct t; simpl; now rewrite Ht.
  - pose proof (Hpre [] (c :: pre) eq_refl) as E. simpl in E.
    rewrite E; [|discriminate].
    apply IH. intros p q -> Hq. apply (Hpre (c :: p) q eq_refl Hq).
Qed.

(** Every element of [findall] is the group of a match at some position. *)
Lemma findall_from_In (r : regex) (n : nat) (s g : str) :
  In g (findall_from r n s) ->
  exists pre t rest, s = pre ++ t /\ match_here r t = Some (g, rest).
Proof.
  revert n. induction s as [|c s IH]; intros n H.
  - destruct n; simpl in H; [|contradiction].
    destruct (match_here r []) as [[cap rest]|] eqn:E; [|contradiction].
    destruct H as [<-|[]]. now exists [], [], rest.
  - destruct n; simpl in H.
    + destruct (match_here r (c :: s)) as [[cap rest]|] eqn:E.
      * destruct H as [<-|H]; [now exists [], (c :: s), rest|].
        destruct (IH _ H) as (pre & t & rest' & -> & Ht).
        now exists (c :: pre), t, rest'.
      * destruct (IH _ H) as (pre & t & rest' & -> & Ht).
        now exists (c :: pre), t, rest'.
    + destruct (IH _ H) as (pre & t & rest' & -> & Ht).
      now exists (c :: pre), t, rest'.
Qed.

Lemma findall_In (r : regex) (s g : str) :
  In g (findall r s) ->
  exists pre t rest, s = pre ++ t /\ match_here r t = Some (g, rest).
Proof. apply findall_from_In. Qed.

(** A text with no match at any position gives the empty list. *)
Lemma findall_from_nil (r : regex) (n : nat) (s : str) :
  (forall pre t, s = pre ++ t -> match_here r t = None) ->
  findall_from r n s = [].
Proof.
  revert n. induction s as [|c s IH]; intros n H.
  - destruct n; simpl; [|reflexivity]. now rewrite (H [] [] eq_refl).
  - destruct n; simpl.
    + rewrite (H [] (c :: s) eq_refl). apply IH.
      intros pre t ->. apply (H (c :: pre) t eq_refl).
    + apply IH. intros pre t ->. apply (H (c :: pre) t eq_refl).
Qed.

Lemma findall_nil (r : regex) (s : str) :
  (forall pre t, s = pre ++ t -> match_here r t = None) -> findall r s = [].
Proof. apply findall_from_nil. Qed.

(** Passing over [n] characters is dropping them. *)
Lemma findall_from_skipn (r : regex) (n : nat) (s : str) :
  (n <= List.length s)%nat ->
  findall_from r n s = findall r (skipn n s).
Proof.
  revert n. induction s as [|c s IH]; intros n Hn.
  - destruct n; [reflexivity|simpl in Hn; lia].
  - destruct n; [reflexivity|]. simpl in Hn. simpl skipn.
    change (findall_from r (S n) (c :: s)) with (findall_from r n s).
    apply IH. lia.
Qed.

(** The equations of [findall]: a position without a match is passed
    over; a match that takes at least one character gives its group, and
    the scan goes on after the match. *)
Lemma findall_cons_none (r : regex) (c : char) (s : str) :
  match_here r (c :: s) = None -> findall r (c :: s) = findall r s.
Proof. unfold findall. simpl. now intros ->. Qed.

Lemma findall_match (r : regex) (m cap rest : str) :
  m <> [] ->
  match_here r (m ++ rest) = Some (cap, rest) ->
  findall r (m ++ rest) = cap :: findall r rest.
Proof.
  intros Hm H. destruct m as [|c m]; [now elim Hm|].
  unfold findall at 1. simpl app in *. cbn [findall_from]. rewrite H.
  f_equal. rewrite findall_from_skipn.
  - f_equal. cbn [List.length]. rewrite length_app.
    replace (S (List.length m + List.length rest) - List.length rest - 1)%nat
      with (List.length m + 0)%nat by lia.
    now rewrite skipn_app, Nat.add_0_r, skipn_all, Nat.sub_diag.
  - cbn [List.length]. rewrite length_app. lia.
Qed.

(** ** The patterns of the script *)

(** A group [p+] followed by a literal [d]: the group is a non-empty run
    of [p], and [d] comes right after it. *)
Lemma run_then_inv (p : char -> bool) (d : char) (s cap rest : str) :
  match_here [Item p Plus true; lit_char d] s = Some (cap, rest) ->
  s = cap ++ d :: rest /\ cap <> [] /\ Forall (fun c => p c = true) cap.
Proof.
  simpl. destruct s as [|c s]; [discriminate|].
  destruct (p c) eqn:Hc; [|discriminate].
  destruct (greedy p true _ s) as [[cap0 rest0]|] eqn:E; [|discriminate].
  intros [= <- <-].
  destruct (greedy_inv _ _ _ _ _ _ E) as (run & s' & cap' & -> & Hrun & Hk & ->).
  destruct s' as [|x s']; [discriminate|].
  destruct (N.eqb_spec d x) as [<-|]; [|discriminate].
  injection Hk as <- <-. rewrite app_nil_r.
  repeat split; [discriminate|now constructor].
Qed.

Lemma run_then_intro (p : char -> bool) (d : char) (cap rest : str) :
  p d = false -> cap <> [] -> Forall (fun c => p c = true) cap ->
  match_here [Item p Plus true; lit_char d] (cap ++ d :: rest)
  = Some (cap, rest).
Proof.
  intros Hd Hne Hcap. destruct cap as [|c cap]; [now elim Hne|].
  inversion_clear Hcap as [|? ? Hc Hrun]. cbn [match_here rep cls grp app].
  rewrite Hc.
  rewrite (greedy_run p true _ cap (d :: rest) [] rest Hrun).
  - now rewrite app_nil_r.
  - cbn. now rewrite N.eqb_refl.
  - now intros c0 t [= <- _].
Qed.

Lemma not_char_Forall (d : char) (s : str) :
  Forall (fun c => not_char d c = true) s <-> ~ In d s.
Proof.
  unfold not_char. rewrite Forall_forall. split.
  - intros H Hin. specialize (H _ Hin). rewrite N.eqb_refl in H. discriminate.
  - intros H c Hc. destruct (N.eqb_spec c d) as [->|]; [contradiction|reflexivity].
Qed.

(** A pattern [name Q ([^Q]+) Q], [Q] the double quote, matches exactly
    the name followed by a quoted, non-empty, quote-free value. *)
Lemma attr_match_inv (name : string) (s cap rest : str) :
  match_here (lit name ++ [lit_char dquote]
              ++ [Item (not_char dquote) Plus true] ++ [lit_char dquote]) s
  = Some (cap, rest) ->
  s = of_string name ++ dquote :: cap ++ dquote :: rest
  /\ cap <> [] /\ ~ In dquote cap.
Proof.
  intros H. apply match_here_lit_inv in H. destruct H as (s1 & -> & H).
  cbn [app] in H.
  change (lit_char dquote :: ?r) with (map lit_char [dquote] ++ r) in H.
  apply match_here_lit_inv in H. destruct H as (s2 & -> & H).
  apply run_then_inv in H. destruct H as (-> & Hne & Hcap).
  rewrite not_char_Forall in Hcap. auto.
Qed.

Lemma attr_match_intro (name : string) (cap rest : str) :
  cap <> [] -> ~ In dquote cap ->
  match_here (lit name ++ [lit_char dquote]
              ++ [Item (not_char dquote) Plus true] ++ [lit_char dquote])
    (of_string name ++ dquote :: cap ++ dquote :: rest)
  = Some (cap, rest).
Proof.
  intros Hne Hcap. unfold lit. rewrite match_here_lit_app. cbn [app].
  change (lit_char dquote :: ?r) with (map lit_char [dquote] ++ r).
  change (dquote :: cap ++ dquote :: rest)
    with ([dquote] ++ cap ++ dquote :: rest).
  rewrite match_here_lit_app.
  apply run_then_intro; [reflexivity|assumption|now apply not_char_Forall].
Qed.

Lemma match_here_star (p : char -> bool) (g : bool) (r : regex) (s : str) :
  match_here (Item p Star g :: r) s = greedy p g (match_here r) s.
Proof. reflexivity. Qed.

(** The pattern of a language matches exactly: the label, a colon, white
    space, an opening brace, a non-empty text without a closing brace, and
    a closing brace. *)
Lemma loc_match_here_inv (l : locale) (s content rest : str) :
  match_here (loc_pattern l) s = Some (content, rest) ->
  exists ws,
    s = of_string (label l) ++ colon :: ws ++ lbrace :: content
        ++ rbrace :: rest
    /\ Forall (fun c => is_space c = true) ws
    /\ content <> [] /\ ~ In rbrace content.
Proof.
  unfold loc_pattern. intros H.
  apply match_here_lit_inv in H. destruct H as (s1 & -> & H).
  cbn [app] in H.
  change (lit_char colon :: ?r) with (map lit_char [colon] ++ r) in H.
  apply match_here_lit_inv in H. destruct H as (s2 & -> & H).
  rewrite match_here_star in H.
  apply greedy_inv in H. destruct H as (ws & s3 & cap' & -> & Hws & H & ->).
  change (lit_char lbrace :: ?r) with (map lit_char [lbrace] ++ r) in H.
  apply match_here_lit_inv in H. destruct H as (s4 & -> & H).
  apply run_then_inv in H. destruct H as (-> & Hne & Hcap).
  rewrite not_char_Forall in Hcap. exists ws. auto.
Qed.

Lemma loc_match_here_intro (l : locale) (ws content rest : str) :
  Forall (fun c => is_space c = true) ws ->
  content <> [] -> ~ In rbrace content ->
  match_here (loc_pattern l)
    (of_string (label l) ++ colon :: ws ++ lbrace :: content
     ++ rbrace :: rest)
  = Some (content, rest).
Proof.
  intros Hws Hne Hcap. unfold loc_pattern, lit.
  rewrite match_here_lit_app. cbn [app].
  change (lit_char colon :: ?r) with (map lit_char [colon] ++ r).
  change (colon :: ?t) with ([colon] ++ t).
  rewrite match_here_lit_app, match_here_star.
  rewrite (greedy_run is_space false _ ws _ content rest Hws).
  - reflexivity.
  - change (lit_char lbrace :: ?r) with (map lit_char [lbrace] ++ r).
    change (lbrace :: ?t) with ([lbrace] ++ t).
    rewrite match_here_lit_app.
    apply run_then_intro; [reflexivity|assumption|now apply not_char_Forall].
  - now intros c t [= <- _].
Qed.

(** ** The order of [str] and [sorted] *)

Lemma str_leb_refl (a : str) : str_leb a a = true.
Proof.
  induction a as [|x a IH]; simpl; [reflexivity|].
  now rewrite N.ltb_irrefl.
Qed.

Lemma str_leb_total (a b : str) : str_leb a b = true \/ str_leb b a = true.
Proof.
  revert b. induction a as [|x a IH]; intros [|y b]; simpl; auto.
  destruct (N.ltb_spec x y), (N.ltb_spec y x); auto; lia.
Qed.

Lemma str_leb_antisym (a b : str) :
  str_leb a b = true -> str_leb b a = true -> a = b.
Proof.
  revert b. induction a as [|x a IH]; intros [|y b]; simpl; try discriminate; auto.
  destruct (N.ltb_spec x y), (N.ltb_spec y x); try discriminate; try lia.
  intros H1 H2. f_equal; [lia|auto].
Qed.

Lemma str_leb_trans (a b c : str) :
  str_leb a b = true -> str_leb b c = true -> str_leb a c = true.
Proof.
  revert b c. induction a as [|x a IH]; intros [|y b] [|z c]; simpl;
    try discriminate; auto.
  destruct (N.ltb_spec x y), (N.ltb_spec y x), (N.ltb_spec y z),
    (N.ltb_spec z y), (N.ltb_spec x z), (N.ltb_spec z x);
    try discriminate; try lia; auto.
  apply IH.
Qed.

Lemma insert_perm (k : str) (l : list str) : Permutation (insert k l) (k :: l).
Proof.
  induction l as [|h t IH]; simpl; [reflexivity|].
  destruct (str_leb k h); [reflexivity|].
  rewrite IH. apply perm_swap.
Qed.

Lemma sorted_perm (l : list str) : Permutation (sorted l) l.
Proof.
  induction l as [|k l IH]; simpl; [reflexivity|].
  now rewrite insert_perm, IH.
Qed.

Lemma insert_sorted (k : str) (l : list str) :
  StronglySorted str_le l -> StronglySorted str_le (insert k l).
Proof.
  induction 1 as [|h t Ht IH Hh]; simpl.
  - repeat constructor.
  - destruct (str_leb k h) eqn:E.
    + constructor; [now constructor|]. constructor; [exact E|].
      eapply Forall_impl; [|exact Hh]. intros x Hx.
      exact (str_leb_trans _ _ _ E Hx).
    + constructor; [exact IH|].
      apply (Permutation_Forall (Permutation_sym (insert_perm k t))).
      constructor; [|exact Hh].
      destruct (str_leb_total k h) as [H|H]; [congruence|exact H].
Qed.

Lemma sorted_sorted (l : list str) : StronglySorted str_le (sorted l).
Proof.
  induction l as [|k l IH]; simpl; [constructor|now apply insert_sorted].
Qed.

(** Without repetition, ascending is strictly ascending. *)
Lemma sorted_strict (l : list str) :
  StronglySorted str_le l -> NoDup l -> StronglySorted str_lt l.
Proof.
  induction 1 as [|h t Ht IH Hh]; intros Hnd; [constructor|].
  inversion_clear Hnd as [|? ? Hnot Hnd']. constructor; [auto|].
  rewrite Forall_forall in *. intros x Hx. split; [auto|].
  intros ->. contradiction.
Qed.

Lemma filter_sorted (R : str -> str -> Prop) (f : str -> bool) (l : list str) :
  StronglySorted R l -> StronglySorted R (filter f l).
Proof.
  induction 1 as [|h t Ht IH Hh]; simpl; [constructor|].
  destruct (f h); [|exact IH]. constructor; [exact IH|].
  rewrite Forall_forall in *. intros x Hx. apply filter_In in Hx. apply Hh, Hx.
Qed.

(** [sorted_keys] is strictly ascending and has the elements of
    [all_keys]. *)
Lemma all_keys_NoDup (html_content : str) : NoDup (all_keys html_content).
Proof. apply NoDup_nodup. Qed.

Lemma sorted_keys_In (html_content k : str) :
  In k (sorted_keys html_content) <-> In k (all_keys html_content).
Proof.
  unfold sorted_keys. split; apply Permutation_in;
    [|symmetry]; apply sorted_perm.
Qed.

Lemma sorted_keys_NoDup (html_content : str) : NoDup (sorted_keys html_content).
Proof.
  unfold sorted_keys.
  eapply Permutation_NoDup; [symmetry; apply sorted_perm|apply all_keys_NoDup].
Qed.

Lemma sorted_keys_strict (html_content : str) :
  StronglySorted str_lt (sorted_keys html_content).
Proof.
  apply sorted_strict; [apply sorted_sorted|apply sorted_keys_NoDup].
Qed.

(** ** The loop of [missing_keys] *)

(** The loop keeps, in order, the keys that are not in [keys]. *)
Lemma missing_keys_filter (sorted_keys keys : list str) :
  missing_keys sorted_keys keys = filter (absent keys) sorted_keys.
Proof.
  unfold missing_keys.
  enough (H : forall acc,
    fold_left (fun acc key => if absent keys key then acc ++ [key] else acc)
      sorted_keys acc = acc ++ filter (absent keys) sorted_keys)
    by apply (H []).
  induction sorted_keys as [|k l IH]; intros acc; simpl.
  - now rewrite app_nil_r.
  - rewrite IH. destruct (absent keys k); [|reflexivity].
    now rewrite <- app_assoc.
Qed.

Lemma missing_keys_In (sorted_keys keys : list str) (k : str) :
  In k (missing_keys sorted_keys keys) <-> In k sorted_keys /\ ~ In k keys.
Proof.
  rewrite missing_keys_filter, filter_In. unfold absent.
  destruct (in_dec str_eq_dec k keys); intuition discriminate.
Qed.

(** ** The stanza of a language *)

(** Where [search] finds the block of a language: the capture is the text
    between the opening brace that follows the label and the next closing
    brace. *)
Lemma loc_match_span (l : locale) (script_content content rest : str) :
  loc_match l script_content = Some (content, rest) ->
  exists pre ws,
    script_content
    = pre ++ of_string (label l) ++ colon :: ws ++ lbrace :: content
      ++ rbrace :: rest
    /\ Forall (fun c => is_space c = true) ws
    /\ content <> [] /\ ~ In rbrace content.
Proof.
  intros H. apply search_inv in H. destruct H as (pre & t & -> & Ht & _).
  apply loc_match_here_inv in Ht. destruct Ht as (ws & -> & Hws & Hne & Hc).
  exists pre, ws. auto.
Qed.

(** A text without the label followed by a colon has no block. *)
Lemma label_absent_no_match (l : locale) (script_content : str) :
  (forall pre post,
     script_content <> pre ++ of_string (label l) ++ colon :: post) ->
  loc_match l script_content = None.
Proof.
  intros H. destruct (loc_match l script_content) as [[content rest]|] eqn:E;
    [|reflexivity].
  apply loc_match_span in E. destruct E as (pre & ws & E & _).
  now elim (H pre (ws ++ lbrace :: content ++ rbrace :: rest)).
Qed.

Lemma print_locale_lines (l : locale) (r : option locale_report) (ln : line) :
  In ln (print_locale l r) ->
  exists r', r = Some r' /\
    (ln = KeysFound l (defined_count r')
     \/ (ln = AllTranslated l /\ complete r' = true)
     \/ (ln = MissingHeader l (List.length (missing r'))
         /\ complete r' = false)
     \/ (exists k, ln = KeyLine k /\ In k (missing r')
         /\ complete r' = false)).
Proof.
  destruct r as [r|]; simpl; [|contradiction].
  intros [<-|H]; [eauto|]. exists r. split; [reflexivity|].
  destruct (complete r).
  - destruct H as [<-|[]]. auto.
  - destruct H as [<-|H]; [auto|].
    apply in_map_iff in H. destruct H as (k & <- & Hk). eauto 7.
Qed.

Section Stanza.

Variable unicode_alnum : char -> bool.

(** Every key of a block is a non-empty run of word characters that the
    block has, followed by a colon. *)
Lemma content_keys_In (content k : str) :
  In k (content_keys unicode_alnum content) ->
  (exists u v, content = u ++ k ++ colon :: v)
  /\ k <> [] /\ Forall (fun c => is_word unicode_alnum c = true) k.
Proof.
  intros H. apply findall_In in H. destruct H as (u & t & v & -> & H).
  apply run_then_inv in H. destruct H as (-> & Hne & Hk). eauto.
Qed.

Lemma loc_keys_content (l : locale) (script_content content rest : str) :
  loc_match l script_content = Some (content, rest) ->
  loc_keys unicode_alnum l script_content
  = Some (content_keys unicode_alnum content).
Proof. unfold loc_keys, loc_content. now intros ->. Qed.

Lemma check_locale_inv (l : locale) (sorted_keys : list str)
    (script_content : str) (r : locale_report) :
  check_locale unicode_alnum l sorted_keys script_content = Some r ->
  exists content rest,
    loc_match l script_content = Some (content, rest)
    /\ defined_count r = List.length (content_keys unicode_alnum content)
    /\ missing r
       = missing_keys sorted_keys (content_keys unicode_alnum content)
    /\ complete r = match missing r with [] => true | _ :: _ => false end.
Proof.
  unfold check_locale.
  destruct (loc_match l script_content) as [[content rest]|];
    [|discriminate].
  intros [= <-]. exists content, rest. auto.
Qed.

Lemma check_locale_none (l : locale) (sorted_keys : list str)
    (script_content : str) :
  loc_match l script_content = None ->
  check_locale unicode_alnum l sorted_keys script_content = None.
Proof. unfold check_locale. now intros ->. Qed.

Lemma complete_iff (l : locale) (sorted_keys : list str)
    (script_content : str) (r : locale_report) :
  check_locale unicode_alnum l sorted_keys script_content = Some r ->
  (complete r = true <-> missing r = []).
Proof.
  intros H. apply check_locale_inv in H.
  destruct H as (_ & _ & _ & _ & _ & ->).
  destruct (missing r); split; congruence.
Qed.

End Stanza.

(** * The claims *)

(** C1: for a language whose block is found, the list of missing keys has
    exactly the required keys that are not among the keys the language
    defines (so every missing key is a required key), in the order of the
    sorted list of required keys: it is that list with the defined keys
    filtered out, and it is strictly ascending whenever the required list
    is, as [sorted_keys] always is. *)
Theorem missing_is_required_minus_defined
    (unicode_alnum : char -> bool) (l : locale)
    (required : list str) (script_content : str) (r : locale_report) :
  check_locale unicode_alnum l required script_content = Some r ->
  exists keys,
    loc_keys unicode_alnum l script_content = Some keys
    /\ (forall k, In k (missing r) <-> In k required /\ ~ In k keys)
    /\ (forall k, In k (missing r) -> In k required)
    /\ missing r = filter (absent keys) required
    /\ (StronglySorted str_lt required -> StronglySorted str_lt (missing r))
    /\ (forall html_content,
          required = sorted_keys html_content ->
          StronglySorted str_lt (missing r)).
Proof.
  intros H. apply check_locale_inv in H.
  destruct H as (content & rest & Hm & _ & Hmiss & _).
  exists (content_keys unicode_alnum content).
  assert (Hs : StronglySorted str_lt required ->
               StronglySorted str_lt (missing r)).
  { intros Hs. rewrite Hmiss, missing_keys_filter. now apply filter_sorted. }
  repeat split.
  - now apply loc_keys_content with rest.
  - rewrite Hmiss in H. now apply missing_keys_In in H.
  - rewrite Hmiss in H. now apply missing_keys_In in H.
  - intros Hk. rewrite Hmiss. now apply missing_keys_In.
  - intros k Hk. rewrite Hmiss in Hk. now apply missing_keys_In in Hk.
  - rewrite Hmiss. apply missing_keys_filter.
  - exact Hs.
  - intros html_content ->. apply Hs, sorted_keys_strict.
Qed.

Lemma missing_is_required_minus_defined_witness :
  check_locale no_alnum en (sorted_keys sample_html) sample_script
  = Some (Report 1 [of_string "search"] false)
  /\ exists keys,
       loc_keys no_alnum en sample_script = Some keys
       /\ (forall k, In k [of_string "search"]
                     <-> In k (sorted_keys sample_html) /\ ~ In k keys)
       /\ (forall k, In k [of_string "search"]
                     -> In k (sorted_keys sample_html))
       /\ [of_string "search"] = filter (absent keys) (sorted_keys sample_html)
       /\ (StronglySorted str_lt (sorted_keys sample_html) ->
           StronglySorted str_lt [of_string "search"])
       /\ (forall html_content,
             sorted_keys sample_html = sorted_keys html_content ->
             StronglySorted str_lt [of_string "search"]).
Proof.
  split; [vm_compute; reflexivity|].
  apply (missing_is_required_minus_defined no_alnum en
           (sorted_keys sample_html) sample_script
           (Report 1 [of_string "search"] false)).
  vm_compute; reflexivity.
Defined.

(** C2: the block of a language ends at the first closing brace after the
    label: the text captured starts after the opening brace that follows
    the label and has no closing brace, and a closing brace comes right
    after it.  The keys of the language are the keys of that text alone,
    each written in it before a colon; a key written only after that
    closing brace is not among them. *)
Theorem block_ends_at_first_closing_brace
    (unicode_alnum : char -> bool) (l : locale)
    (script_content content rest : str) :
  loc_match l script_content = Some (content, rest) ->
  (exists pre ws,
     script_content
     = pre ++ of_string (label l) ++ colon :: ws ++ lbrace :: content
       ++ rbrace :: rest
     /\ Forall (fun c => is_space c = true) ws
     /\ content <> [] /\ ~ In rbrace content)
  /\ loc_keys unicode_alnum l script_content
     = Some (content_keys unicode_alnum content)
  /\ (forall k, In k (content_keys unicode_alnum content) ->
                exists u v, content = u ++ k ++ colon :: v)
  /\ (forall k keys,
        (forall u v, content <> u ++ k ++ colon :: v) ->
        loc_keys unicode_alnum l script_content = Some keys ->
        ~ In k keys).
Proof.
  intros H. split; [now apply loc_match_span|].
  split; [now apply loc_keys_content with rest|]. split.
  - intros k Hk. now apply content_keys_In in Hk.
  - intros k keys Hk Hkeys Hin.
    rewrite (loc_keys_content _ _ _ _ _ H) in Hkeys. injection Hkeys as <-.
    apply content_keys_In in Hin. destruct Hin as ((u & v & E) & _).
    exact (Hk u v E).
Qed.

Lemma block_ends_at_first_closing_brace_witness :
  loc_match en nested_script
  = Some (of_string " a: { x: 1 ", of_string ", b: 2 }")
  /\ loc_keys no_alnum en nested_script
     = Some [of_string "a"; of_string "x"]
  /\ ((exists pre ws,
         nested_script
         = pre ++ of_string (label en) ++ colon :: ws ++ lbrace
           :: of_string " a: { x: 1 " ++ rbrace :: of_string ", b: 2 }"
         /\ Forall (fun c => is_space c = true) ws
         /\ of_string " a: { x: 1 " <> [] /\ ~ In rbrace (of_string " a: { x: 1 "))
      /\ loc_keys no_alnum en nested_script
         = Some (content_keys no_alnum (of_string " a: { x: 1 "))
      /\ (forall k, In k (content_keys no_alnum (of_string " a: { x: 1 ")) ->
                    exists u v, of_string " a: { x: 1 " = u ++ k ++ colon :: v)
      /\ (forall k keys,
            (forall u v, of_string " a: { x: 1 " <> u ++ k ++ colon :: v) ->
            loc_keys no_alnum en nested_script = Some keys ->
            ~ In k keys)).
Proof.
  split; [vm_compute; reflexivity|]. split; [vm_compute; reflexivity|].
  apply (block_ends_at_first_closing_brace no_alnum en nested_script
           (of_string " a: { x: 1 ") (of_string ", b: 2 }")).
  vm_compute; reflexivity.
Defined.

(** A text that starts with a block: the capture stops at the first closing
    brace, whatever follows it. *)
Lemma loc_match_at_start (l : locale) (ws body tail : str) :
  Forall (fun c => is_space c = true) ws ->
  body <> [] -> ~ In rbrace body ->
  loc_match l (of_string (label l) ++ colon :: ws ++ lbrace :: body
               ++ rbrace :: tail)
  = Some (body, tail).
Proof.
  intros Hws Hne Hb. unfold loc_match.
  apply (search_intro _ [] _ (body, tail)).
  - intros p q Hpq Hq. destruct p, q; try discriminate. now elim Hq.
  - now apply loc_match_here_intro.
Qed.

(** C3, as the script has it: when the pattern of a language finds no
    block, as when the text has no label followed by a colon, the stanza of
    the language is skipped: no list of defined keys is made, no report is
    worked out, and the output has no line for the language, neither a
    count of defined keys, nor a list of missing keys, nor the message of a
    full translation. *)
Theorem no_block_no_report
    (unicode_alnum : char -> bool) (l : locale)
    (html_content script_content : str) :
  ((forall pre post,
      script_content <> pre ++ of_string (label l) ++ colon :: post) ->
   loc_match l script_content = None)
  /\ (loc_match l script_content = None ->
      loc_keys unicode_alnum l script_content = None
      /\ check_locale unicode_alnum l (sorted_keys html_content)
           script_content = None
      /\ forall n,
           ~ In (KeysFound l n) (main unicode_alnum html_content script_content)
           /\ ~ In (MissingHeader l n)
                  (main unicode_alnum html_content script_content)
           /\ ~ In (AllTranslated l)
                  (main unicode_alnum html_content script_content)).
Proof.
  split; [apply label_absent_no_match|]. intros H.
  split; [unfold loc_keys, loc_content; now rewrite H|].
  split; [now apply check_locale_none|].
  assert (Hl : forall ln,
    In ln (main unicode_alnum html_content script_content) ->
    (forall n, ln <> KeysFound l n) /\ (forall n, ln <> MissingHeader l n)
    /\ ln <> AllTranslated l).
  { intros ln Hln. unfold main in Hln. cbv zeta in Hln.
    destruct Hln as [<-|Hln]; [repeat split; intros; discriminate|].
    repeat (apply in_app_or in Hln; destruct Hln as [Hln|Hln]).
    - apply in_map_iff in Hln. destruct Hln as (k & <- & _).
      repeat split; intros; discriminate.
    - destruct Hln as [<-|[<-|[]]]; repeat split; intros; discriminate.
    - apply print_locale_lines in Hln. destruct Hln as (r' & Hr & Hln).
      assert (l <> en).
      { intros ->. rewrite (check_locale_none _ _ _ _ H) in Hr. discriminate. }
      destruct Hln as [->|[[-> _]|[[-> _]|(k & -> & _)]]];
        repeat split; intros; congruence.
    - apply print_locale_lines in Hln. destruct Hln as (r' & Hr & Hln).
      assert (l <> es).
      { intros ->. rewrite (check_locale_none _ _ _ _ H) in Hr. discriminate. }
      destruct Hln as [->|[[-> _]|[[-> _]|(k & -> & _)]]];
        repeat split; intros; congruence.
    - apply print_locale_lines in Hln. destruct Hln as (r' & Hr & Hln).
      assert (l <> pl).
      { intros ->. rewrite (check_locale_none _ _ _ _ H) in Hr. discriminate. }
      destruct Hln as [->|[[-> _]|[[-> _]|(k & -> & _)]]];
        repeat split; intros; congruence. }
  intros n. repeat split; intros Hin; apply Hl in Hin;
    destruct Hin as (H1 & H2 & H3); [now elim (H1 n)|now elim (H2 n)|now elim H3].
Qed.

Lemma no_block_no_report_witness :
  (forall pre post,
     ([] : str) <> pre ++ of_string (label en) ++ colon :: post)
  /\ loc_match en [] = None
  /\ loc_keys no_alnum en [] = None
  /\ check_locale no_alnum en (sorted_keys sample_html) [] = None
  /\ forall n,
       ~ In (KeysFound en n) (main no_alnum sample_html [])
       /\ ~ In (MissingHeader en n) (main no_alnum sample_html [])
       /\ ~ In (AllTranslated en) (main no_alnum sample_html []).
Proof.
  assert (Hlabel : forall pre post,
            ([] : str) <> pre ++ of_string (label en) ++ colon :: post)
    by (intros [|c pre] post; discriminate).
  destruct (no_block_no_report no_alnum en sample_html []) as [Hnone Hskip].
  split; [exact Hlabel|]. split; [exact (Hnone Hlabel)|].
  exact (Hskip (Hnone Hlabel)).
Defined.

(** C3, the claim as written fails: the empty text has no label, and the
    script gives neither an empty list of defined keys nor a report whose
    missing list is the required list; it gives no report. *)
Lemma no_block_no_report_counterexample :
  (forall pre post,
     ([] : str) <> pre ++ of_string (label en) ++ colon :: post)
  /\ sorted_keys sample_html = [of_string "search"; of_string "title"]
  /\ loc_keys no_alnum en [] <> Some []
  /\ ~ exists r,
        check_locale no_alnum en (sorted_keys sample_html) [] = Some r
        /\ missing r = sorted_keys sample_html.
Proof.
  split; [intros [|c pre] post; discriminate|].
  split; [vm_compute; reflexivity|].
  split; [discriminate|]. intros (r & Hr & _). discriminate.
Qed.

(** ** Counting the keys of a block *)

Lemma nodup_length_le (l : list str) :
  (List.length (nodup str_eq_dec l) <= List.length l)%nat.
Proof.
  induction l as [|a l IH]; simpl; [lia|].
  destruct (in_dec str_eq_dec a l); simpl; lia.
Qed.

Lemma nodup_length_eq (l : list str) :
  List.length (nodup str_eq_dec l) = List.length l <-> NoDup l.
Proof.
  split.
  - induction l as [|a l IH]; simpl; [constructor|].
    pose proof (nodup_length_le l).
    destruct (in_dec str_eq_dec a l); simpl; intros E; [lia|].
    constructor; [assumption|apply IH; lia].
  - intros H. now rewrite (nodup_fixed_point str_eq_dec H).
Qed.

(** C4, as the script has it: the keys of a language are kept as the list
    of the matches of its block, and the count printed is the length of
    that list, so a key written twice is counted twice.  The count is at
    least the number of distinct keys, and equals it exactly when no key is
    repeated in the block. *)
Theorem defined_count_counts_matches
    (unicode_alnum : char -> bool) (l : locale)
    (required : list str) (script_content : str) (r : locale_report) :
  check_locale unicode_alnum l required script_content = Some r ->
  exists keys,
    loc_keys unicode_alnum l script_content = Some keys
    /\ defined_count r = List.length keys
    /\ (List.length (nodup str_eq_dec keys) <= defined_count r)%nat
    /\ (defined_count r = List.length (nodup str_eq_dec keys) <-> NoDup keys).
Proof.
  intros H. apply check_locale_inv in H.
  destruct H as (content & rest & Hm & Hcount & _).
  exists (content_keys unicode_alnum content).
  split; [now apply loc_keys_content with rest|]. split; [exact Hcount|].
  rewrite Hcount. split; [apply nodup_length_le|].
  rewrite <- nodup_length_eq. split; congruence.
Qed.

Lemma defined_count_counts_matches_witness :
  check_locale no_alnum en [] dup_script = Some (Report 2 [] true)
  /\ exists keys,
       loc_keys no_alnum en dup_script = Some keys
       /\ 2%nat = List.length keys
       /\ (List.length (nodup str_eq_dec keys) <= 2)%nat
       /\ (2%nat = List.length (nodup str_eq_dec keys) <-> NoDup keys).
Proof.
  split; [vm_compute; reflexivity|].
  apply (defined_count_counts_matches no_alnum en [] dup_script
           (Report 2 [] true)).
  vm_compute; reflexivity.
Defined.

(** C4, the claim as written fails: a block that writes the key [a] twice
    has one distinct key and a printed count of two. *)
Lemma defined_count_counterexample :
  loc_keys no_alnum en dup_script = Some [of_string "a"; of_string "a"]
  /\ List.length (nodup str_eq_dec [of_string "a"; of_string "a"]) = 1%nat
  /\ check_locale no_alnum en [] dup_script = Some (Report 2 [] true)
  /\ In (KeysFound en 2) (main no_alnum [] dup_script).
Proof.
  repeat split; try (vm_compute; reflexivity).
  vm_compute. auto.
Qed.

(** Every key of a language is written, before a colon, inside the text
    its own pattern captured.  The pattern does not ask for the label to
    start a word, so the place where it matches can be the end of a longer
    key of another table. *)
Lemma keys_from_own_span
    (unicode_alnum : char -> bool) (l : locale)
    (script_content : str) (keys : list str) :
  loc_keys unicode_alnum l script_content = Some keys ->
  exists pre ws content rest,
    script_content
    = pre ++ of_string (label l) ++ colon :: ws ++ lbrace :: content
      ++ rbrace :: rest
    /\ Forall (fun c => is_space c = true) ws
    /\ ~ In rbrace content
    /\ loc_content l script_content = Some content
    /\ (forall k, In k keys -> exists u v, content = u ++ k ++ colon :: v)
    /\ (forall k, (forall u v, content <> u ++ k ++ colon :: v) ->
                  ~ In k keys).
Proof.
  unfold loc_keys, loc_content.
  destruct (loc_match l script_content) as [[content rest]|] eqn:E;
    [|discriminate].
  simpl. intros [= <-].
  destruct (loc_match_span _ _ _ _ E) as (pre & ws & Hs & Hws & _ & Hc).
  exists pre, ws, content, rest. repeat split; auto.
  - intros k Hk. now apply content_keys_In in Hk.
  - intros k Hk Hin. apply content_keys_In in Hin.
    destruct Hin as ((u & v & Huv) & _). exact (Hk u v Huv).
Qed.

(** C5 asks that the keys of a language come from its own table only and
    that no key written only in the table of another language is among
    them.  The script on a text with a Spanish table followed by an English
    table: the pattern of [en] matches first at the end of the Spanish key
    [token], so the key [b], written once, inside the Spanish block and
    nowhere else, is given as the one English key, and the key [a] of the
    English table is not found. *)
Theorem foreign_key_among_english_keys :
  cross_script = of_string "es: {" ++ es_block ++ of_string "} en: { a: 1 }"
  /\ loc_content es cross_script = Some es_block
  /\ In (of_string "b") (content_keys no_alnum es_block)
  /\ ~ In (of_string "b") (content_keys no_alnum (of_string "es: {"))
  /\ ~ In (of_string "b")
          (content_keys no_alnum (of_string "} en: { a: 1 }"))
  /\ loc_keys no_alnum en cross_script = Some [of_string "b"].
Proof.
  split; [reflexivity|]. split; [vm_compute; reflexivity|].
  split; [vm_compute; auto|].
  split; [vm_compute; intuition discriminate|].
  split; [vm_compute; intuition discriminate|].
  vm_compute; reflexivity.
Qed.

(** ** Required keys *)

(** The place of an element that occurs on neither left side. *)
Lemma app_pivot (x : char) (a a' b b' : str) :
  ~ In x a -> ~ In x a' -> a ++ x :: b = a' ++ x :: b' -> a = a' /\ b = b'.
Proof.
  revert a'. induction a as [|c a IH]; intros [|c' a'] Ha Ha' E; simpl in E.
  - injection E as <-. auto.
  - injection E as <- _. elim Ha'. now left.
  - injection E as -> _. elim Ha. now left.
  - injection E as <- E. destruct (IH a') as [-> ->]; auto.
    + intros H. apply Ha. now right.
    + intros H. apply Ha'. now right.
Qed.

Lemma count_occ_pivot (x : char) (a b : str) :
  count_occ N.eq_dec (a ++ x :: b) x
  = S (count_occ N.eq_dec a x + count_occ N.eq_dec b x).
Proof.
  rewrite count_occ_app, count_occ_cons_eq by reflexivity.
  symmetry. apply plus_n_Sm.
Qed.

Lemma all_keys_In (html_content k : str) :
  In k (all_keys html_content)
  <-> In k (translate_matches html_content)
      \/ In k (placeholder_matches html_content).
Proof. unfold all_keys. now rewrite nodup_In, in_app_iff. Qed.

(** Every match of an attribute pattern is the value of an occurrence of
    the attribute with a non-empty value closed by a quote. *)
Lemma translate_matches_In (html_content k : str) :
  In k (translate_matches html_content) ->
  (exists pre rest,
     html_content
     = pre ++ of_string "data-translate=" ++ dquote :: k ++ dquote :: rest)
  /\ k <> [] /\ ~ In dquote k.
Proof.
  intros H. apply findall_In in H. destruct H as (pre & t & rest & -> & H).
  apply attr_match_inv in H. destruct H as (-> & Hne & Hk). eauto.
Qed.

Lemma placeholder_matches_In (html_content k : str) :
  In k (placeholder_matches html_content) ->
  (exists pre rest,
     html_content
     = pre ++ of_string "data-translate-placeholder=" ++ dquote :: k
       ++ dquote :: rest)
  /\ k <> [] /\ ~ In dquote k.
Proof.
  intros H. apply findall_In in H. destruct H as (pre & t & rest & -> & H).
  apply attr_match_inv in H. destruct H as (-> & Hne & Hk). eauto.
Qed.

(** An attribute whose value is never closed has no match where it
    starts. *)
Lemma attr_unterminated (name : string) (s : str) :
  ~ In dquote s ->
  match_here (lit name ++ [lit_char dquote]
              ++ [Item (not_char dquote) Plus true] ++ [lit_char dquote])
    (of_string name ++ dquote :: s) = None.
Proof.
  intros Hs.
  destruct (match_here _ _) as [[cap rest]|] eqn:E; [|reflexivity].
  apply attr_match_inv in E. destruct E as (E & _ & _).
  apply app_inv_head in E. injection E as ->.
  elim Hs. apply in_or_app. right. now left.
Qed.

(** An attribute with the empty value has no match where it starts. *)
Lemma attr_empty_value (name : string) (rest : str) :
  match_here (lit name ++ [lit_char dquote]
              ++ [Item (not_char dquote) Plus true] ++ [lit_char dquote])
    (of_string name ++ dquote :: dquote :: rest) = None.
Proof.
  destruct (match_here _ _) as [[cap rest']|] eqn:E; [|reflexivity].
  apply attr_match_inv in E. destruct E as (E & Hne & Hcap).
  apply app_inv_head in E. injection E as E.
  destruct cap as [|c cap]; [now elim Hne|].
  injection E as <- _. elim Hcap. now left.
Qed.

(** A well-formed occurrence at the start of the text gives its value, and
    the scan goes on after its closing quote. *)
Lemma attr_findall_head (name : string) (k rest : str) :
  k <> [] -> ~ In dquote k ->
  findall (lit name ++ [lit_char dquote]
           ++ [Item (not_char dquote) Plus true] ++ [lit_char dquote])
    (of_string name ++ dquote :: k ++ dquote :: rest)
  = k :: findall (lit name ++ [lit_char dquote]
                  ++ [Item (not_char dquote) Plus true] ++ [lit_char dquote])
         rest.
Proof.
  intros Hne Hk.
  replace (of_string name ++ dquote :: k ++ dquote :: rest)
    with ((of_string name ++ dquote :: k ++ [dquote]) ++ rest)
    by (rewrite <- !app_assoc; simpl; now rewrite <- app_assoc).
  apply findall_match.
  - intros E. apply app_eq_nil in E. destruct E as [_ E]. discriminate.
  - replace ((of_string name ++ dquote :: k ++ [dquote]) ++ rest)
      with (of_string name ++ dquote :: k ++ dquote :: rest)
      by (rewrite <- !app_assoc; simpl; now rewrite <- app_assoc).
    now apply attr_match_intro.
Qed.

(** A text that does not start with a well-formed occurrence has no match
    at its start, and the scan passes over its first character. *)
Lemma attr_match_none (name : string) (t : str) :
  (forall k rest, k <> [] -> ~ In dquote k ->
     t <> of_string name ++ dquote :: k ++ dquote :: rest) ->
  match_here (lit name ++ [lit_char dquote]
              ++ [Item (not_char dquote) Plus true] ++ [lit_char dquote]) t
  = None.
Proof.
  intros H. destruct (match_here _ t) as [[k rest]|] eqn:E; [|reflexivity].
  apply attr_match_inv in E. destruct E as (E & Hne & Hk).
  now elim (H k rest Hne Hk).
Qed.

Lemma attr_findall_skip (name : string) (c : char) (s : str) :
  (forall k rest, k <> [] -> ~ In dquote k ->
     c :: s <> of_string name ++ dquote :: k ++ dquote :: rest) ->
  findall (lit name ++ [lit_char dquote]
           ++ [Item (not_char dquote) Plus true] ++ [lit_char dquote])
    (c :: s)
  = findall (lit name ++ [lit_char dquote]
             ++ [Item (not_char dquote) Plus true] ++ [lit_char dquote]) s.
Proof. intros H. now apply findall_cons_none, attr_match_none. Qed.

(** The first well-formed occurrence after a text without a double quote
    gives the first key, and the scan goes on after its closing quote. *)
Lemma attr_findall_prefix (name : string) (pre k rest : str) :
  ~ In dquote (of_string name) -> ~ In dquote pre ->
  k <> [] -> ~ In dquote k ->
  findall (lit name ++ [lit_char dquote]
           ++ [Item (not_char dquote) Plus true] ++ [lit_char dquote])
    (pre ++ of_string name ++ dquote :: k ++ dquote :: rest)
  = k :: findall (lit name ++ [lit_char dquote]
                  ++ [Item (not_char dquote) Plus true] ++ [lit_char dquote])
         rest.
Proof.
  intros Hname Hpre Hne Hk. induction pre as [|c pre IH].
  - now apply attr_findall_head.
  - assert (Hpre' : ~ In dquote pre) by (intros H; apply Hpre; now right).
    simpl app. rewrite findall_cons_none; [now apply IH|].
    destruct (match_here _ _) as [[cap r]|] eqn:E; [|reflexivity].
    exfalso. apply attr_match_inv in E. destruct E as (E & _).
    change (c :: pre ++ of_string name ++ dquote :: k ++ dquote :: rest)
      with ((c :: pre) ++ of_string name ++ dquote :: k ++ dquote :: rest)
      in E.
    rewrite app_assoc in E. apply app_pivot in E; [|  |exact Hname].
    + destruct E as [E _]. apply (f_equal (@List.length char)) in E.
      rewrite length_app in E. simpl in E. lia.
    + intros Hin. apply in_app_or in Hin. destruct Hin; contradiction.
Qed.

(** The three equations of the scan settle its value on every text. *)
Lemma attr_findall_unique (name : string) (f : str -> list str) :
  f [] = [] ->
  (forall c s,
     (forall k rest, k <> [] -> ~ In dquote k ->
        c :: s <> of_string name ++ dquote :: k ++ dquote :: rest) ->
     f (c :: s) = f s) ->
  (forall k rest, k <> [] -> ~ In dquote k ->
     f (of_string name ++ dquote :: k ++ dquote :: rest) = k :: f rest) ->
  forall t,
    f t = findall (lit name ++ [lit_char dquote]
                   ++ [Item (not_char dquote) Plus true] ++ [lit_char dquote])
            t.
Proof.
  intros Hnil Hskip Hhead t.
  remember (List.length t) as n eqn:Hn. revert t Hn.
  induction n as [n IH] using lt_wf_ind. intros t Hn.
  destruct (match_here
              (lit name ++ [lit_char dquote]
               ++ [Item (not_char dquote) Plus true] ++ [lit_char dquote]) t)
    as [[k rest]|] eqn:E.
  - apply attr_match_inv in E. destruct E as (-> & Hne & Hk).
    rewrite (Hhead k rest Hne Hk), (attr_findall_head name k rest Hne Hk).
    f_equal. apply (IH (List.length rest)); [|reflexivity].
    subst n. rewrite length_app. simpl. rewrite length_app. simpl. lia.
  - destruct t as [|c s].
    + rewrite Hnil. unfold findall. cbn [findall_from]. now rewrite E.
    + assert (Hshape : forall k rest, k <> [] -> ~ In dquote k ->
                c :: s <> of_string name ++ dquote :: k ++ dquote :: rest).
      { intros k rest Hne Hk Heq. rewrite Heq in E.
        rewrite (attr_match_intro name k rest Hne Hk) in E. discriminate. }
      rewrite (Hskip c s Hshape), (findall_cons_none _ c s E).
      apply (IH (List.length s)); [|reflexivity]. subst n. simpl. lia.
Qed.

(** C6, as the script has it: the required keys are the matches of the
    two attribute patterns taken together, each key once.  A match is the
    text between the double quote after the attribute name and the next
    double quote of the page, and is never empty.  The scan is settled by
    three equations: the empty text has no match; a text that does not
    start with the attribute name, a double quote, a non-empty text without
    a double quote and a double quote is scanned from its second character
    on; a text that starts so gives that text as a key and is scanned on
    after the closing quote.  So the first occurrence after a text without
    a double quote gives the first key.  The function is total: a text
    with no match gives the empty list, and an attribute whose value is
    empty, or that has no double quote at all after its opening quote,
    gives no key. *)
Theorem required_keys_are_union (html_content : str) :
  NoDup (all_keys html_content)
  /\ (forall k,
        In k (all_keys html_content)
        <-> In k (translate_matches html_content)
            \/ In k (placeholder_matches html_content))
  /\ (NoDup (sorted_keys html_content)
      /\ forall k,
           In k (sorted_keys html_content) <-> In k (all_keys html_content))
  /\ (forall k,
        In k (translate_matches html_content) ->
        (exists pre rest,
           html_content
           = pre ++ of_string "data-translate=" ++ dquote :: k
             ++ dquote :: rest)
        /\ k <> [] /\ ~ In dquote k)
  /\ (forall k,
        In k (placeholder_matches html_content) ->
        (exists pre rest,
           html_content
           = pre ++ of_string "data-translate-placeholder=" ++ dquote :: k
             ++ dquote :: rest)
        /\ k <> [] /\ ~ In dquote k)
  /\ ((forall pre t,
         html_content = pre ++ t ->
         match_here translate_pattern t = None
         /\ match_here placeholder_pattern t = None) ->
      all_keys html_content = [] /\ sorted_keys html_content = [])
  /\ (forall s,
        ~ In dquote s ->
        match_here translate_pattern (of_string "data-translate=" ++ dquote :: s)
        = None
        /\ match_here placeholder_pattern
             (of_string "data-translate-placeholder=" ++ dquote :: s)
           = None
        /\ translate_matches (of_string "data-translate=" ++ dquote :: s) = [])
  /\ (forall k rest,
        k <> [] -> ~ In dquote k ->
        translate_matches
          (of_string "data-translate=" ++ dquote :: k ++ dquote :: rest)
        = k :: translate_matches rest
        /\ placeholder_matches
             (of_string "data-translate-placeholder=" ++ dquote :: k
              ++ dquote :: rest)
           = k :: placeholder_matches rest)
  /\ (translate_matches [] = [] /\ placeholder_matches [] = [])
  /\ (forall c s,
        (forall k rest, k <> [] -> ~ In dquote k ->
           c :: s <> of_string "data-translate=" ++ dquote :: k
                     ++ dquote :: rest) ->
        translate_matches (c :: s) = translate_matches s)
  /\ (forall c s,
        (forall k rest, k <> [] -> ~ In dquote k ->
           c :: s <> of_string "data-translate-placeholder=" ++ dquote :: k
                     ++ dquote :: rest) ->
        placeholder_matches (c :: s) = placeholder_matches s)
  /\ (forall pre k rest,
        ~ In dquote pre -> k <> [] -> ~ In dquote k ->
        translate_matches
          (pre ++ of_string "data-translate=" ++ dquote :: k ++ dquote :: rest)
        = k :: translate_matches rest
        /\ placeholder_matches
             (pre ++ of_string "data-translate-placeholder=" ++ dquote :: k
              ++ dquote :: rest)
           = k :: placeholder_matches rest)
  /\ (forall f : str -> list str,
        f [] = [] ->
        (forall c s,
           (forall k rest, k <> [] -> ~ In dquote k ->
              c :: s <> of_string "data-translate=" ++ dquote :: k
                        ++ dquote :: rest) ->
           f (c :: s) = f s) ->
        (forall k rest, k <> [] -> ~ In dquote k ->
           f (of_string "data-translate=" ++ dquote :: k ++ dquote :: rest)
           = k :: f rest) ->
        forall t, f t = translate_matches t)
  /\ (forall f : str -> list str,
        f [] = [] ->
        (forall c s,
           (forall k rest, k <> [] -> ~ In dquote k ->
              c :: s <> of_string "data-translate-placeholder=" ++ dquote :: k
                        ++ dquote :: rest) ->
           f (c :: s) = f s) ->
        (forall k rest, k <> [] -> ~ In dquote k ->
           f (of_string "data-translate-placeholder=" ++ dquote :: k
              ++ dquote :: rest)
           = k :: f rest) ->
        forall t, f t = placeholder_matches t).
Proof.
  assert (Hn1 : ~ In dquote (of_string "data-translate="))
    by (vm_compute; intuition discriminate).
  assert (Hn2 : ~ In dquote (of_string "data-translate-placeholder="))
    by (vm_compute; intuition discriminate).
  split; [apply all_keys_NoDup|]. split; [apply all_keys_In|].
  split; [split; [apply sorted_keys_NoDup|apply sorted_keys_In]|].
  split; [apply translate_matches_In|]. split; [apply placeholder_matches_In|].
  split; [|split; [|split; [|split; [|split; [|split; [|split; [|split]]]]]]].
  - intros H.
    assert (E : all_keys html_content = []).
    { unfold all_keys, translate_matches, placeholder_matches.
      rewrite (findall_nil translate_pattern html_content)
        by (intros pre t Ht; exact (proj1 (H pre t Ht))).
      rewrite (findall_nil placeholder_pattern html_content)
        by (intros pre t Ht; exact (proj2 (H pre t Ht))).
      reflexivity. }
    split; [exact E|]. unfold sorted_keys. rewrite E. reflexivity.
  - intros s Hs. split; [now apply attr_unterminated|].
    split; [now apply attr_unterminated|].
    apply findall_nil. intros pre t Ht.
    destruct (match_here translate_pattern t) as [[cap rest]|] eqn:E;
      [|reflexivity].
    apply attr_match_inv in E. destruct E as (-> & _ & _).
    exfalso.
    apply (f_equal (fun t => count_occ N.eq_dec t dquote)) in Ht.
    rewrite count_occ_pivot, count_occ_app, count_occ_pivot, count_occ_pivot
      in Ht.
    rewrite (proj1 (count_occ_not_In N.eq_dec _ dquote) Hn1) in Ht.
    rewrite (proj1 (count_occ_not_In N.eq_dec s dquote) Hs) in Ht. lia.
  - intros k rest Hne Hk. split; now apply attr_findall_head.
  - split; reflexivity.
  - intros c s. apply attr_findall_skip.
  - intros c s. apply attr_findall_skip.
  - intros pre k rest Hpre Hne Hk. split; now apply attr_findall_prefix.
  - intros f. apply attr_findall_unique.
  - intros f. apply attr_findall_unique.
Qed.

(** C6, the claim as written fails for an attribute that does not close
    its quote: the first attribute of the page is not closed, and it does
    give a key, the text up to the next double quote of the page; the
    value [x] of the second attribute is not among the keys. *)
Lemma unclosed_attribute_counterexample :
  unclosed_html
  = of_string "<p data-translate=" ++ dquote
    :: of_string "abc><q data-translate=" ++ dquote :: of_string "x"
    ++ dquote :: of_string ">"
  /\ translate_matches unclosed_html = [of_string "abc><q data-translate="]
  /\ all_keys unclosed_html = [of_string "abc><q data-translate="]
  /\ ~ In (of_string "x") (all_keys unclosed_html).
Proof.
  split; [reflexivity|]. split; [vm_compute; reflexivity|].
  split; [vm_compute; reflexivity|].
  vm_compute. intuition discriminate.
Qed.

(** ** The message of a full translation *)

Lemma AllTranslated_in_main (unicode_alnum : char -> bool) (l : locale)
    (html_content script_content : str) :
  In (AllTranslated l) (main unicode_alnum html_content script_content)
  <-> exists r,
        check_locale unicode_alnum l (sorted_keys html_content)
          script_content = Some r
        /\ complete r = true.
Proof.
  unfold main. cbv zeta. split.
  - intros [H|H]; [discriminate|].
    repeat (apply in_app_or in H; destruct H as [H|H]).
    + apply in_map_iff in H. destruct H as (k & Hk & _). discriminate.
    + destruct H as [H|[H|[]]]; discriminate.
    + apply print_locale_lines in H. destruct H as (r & Hr & H).
      destruct H as [H|[[H Hc]|[[H _]|(k & H & _)]]]; try discriminate.
      injection H as ->. eauto.
    + apply print_locale_lines in H. destruct H as (r & Hr & H).
      destruct H as [H|[[H Hc]|[[H _]|(k & H & _)]]]; try discriminate.
      injection H as ->. eauto.
    + apply print_locale_lines in H. destruct H as (r & Hr & H).
      destruct H as [H|[[H Hc]|[[H _]|(k & H & _)]]]; try discriminate.
      injection H as ->. eauto.
  - intros (r & Hr & Hc). right.
    assert (Hp : In (AllTranslated l)
              (print_locale l
                 (check_locale unicode_alnum l (sorted_keys html_content)
                    script_content))).
    { rewrite Hr. simpl. rewrite Hc. right. now left. }
    apply in_or_app. right. apply in_or_app. right.
    destruct l.
    + apply in_or_app. now left.
    + apply in_or_app. right. apply in_or_app. now left.
    + apply in_or_app. right. apply in_or_app. now right.
Qed.

(** C7, as the script has it: a language whose block is found is reported
    as fully translated exactly when its list of missing keys is empty, and
    the message of a full translation is printed for a language exactly
    when its block is found and nothing is missing.  With no required key,
    every language whose block is found has an empty missing list and is
    reported as fully translated, whatever the block holds. *)
Theorem complete_iff_nothing_missing
    (unicode_alnum : char -> bool) (l : locale)
    (html_content script_content : str) :
  (forall r,
     check_locale unicode_alnum l (sorted_keys html_content) script_content
     = Some r ->
     (complete r = true <-> missing r = []))
  /\ (In (AllTranslated l) (main unicode_alnum html_content script_content)
      <-> exists r,
            check_locale unicode_alnum l (sorted_keys html_content)
              script_content = Some r
            /\ missing r = [])
  /\ (forall r,
        check_locale unicode_alnum l [] script_content = Some r ->
        missing r = [] /\ complete r = true)
  /\ (sorted_keys html_content = [] ->
      forall content rest,
        loc_match l script_content = Some (content, rest) ->
        In (AllTranslated l)
           (main unicode_alnum html_content script_content)).
Proof.
  split; [intros r; apply complete_iff|]. split; [|split].
  - rewrite AllTranslated_in_main. split; intros (r & Hr & H); exists r;
      (split; [exact Hr|]); now apply (complete_iff _ _ _ _ _ Hr).
  - intros r Hr. assert (E : missing r = []).
    { apply check_locale_inv in Hr.
      destruct Hr as (content & rest & _ & _ & -> & _). reflexivity. }
    split; [exact E|]. now apply (complete_iff _ _ _ _ _ Hr).
  - intros E content rest Hm. apply AllTranslated_in_main.
    rewrite E. unfold check_locale. rewrite Hm. simpl. eauto.
Qed.

(** C7, the claim as written fails: with no required key and a text
    without a block for [en], the language is not reported as fully
    translated; it has no report, and the message is not printed. *)
Lemma complete_counterexample :
  sorted_keys [] = []
  /\ check_locale no_alnum en (sorted_keys []) [] = None
  /\ ~ In (AllTranslated en) (main no_alnum [] []).
Proof.
  split; [reflexivity|]. split; [reflexivity|].
  vm_compute. intuition discriminate.
Qed.

(** C8: the page with [data-translate] for [title] and
    [data-translate-placeholder] for [search] has the required keys
    [search] and [title]; the text whose [en] block has the entry of
    [title] defines the one key [title]; the stanza of [en] finds [search]
    missing and does not report a full translation. *)
Theorem scenario_title_search (unicode_alnum : char -> bool) :
  translate_matches sample_html = [of_string "title"]
  /\ placeholder_matches sample_html = [of_string "search"]
  /\ (forall k, In k (all_keys sample_html)
               <-> k = of_string "title" \/ k = of_string "search")
  /\ sorted_keys sample_html = [of_string "search"; of_string "title"]
  /\ loc_keys unicode_alnum en sample_script = Some [of_string "title"]
  /\ check_locale unicode_alnum en (sorted_keys sample_html) sample_script
     = Some (Report 1 [of_string "search"] false)
  /\ main unicode_alnum sample_html sample_script
     = [KeysHeader; KeyLine (of_string "search"); KeyLine (of_string "title");
        Total 2; Checking; KeysFound en 1; MissingHeader en 1;
        KeyLine (of_string "search")].
Proof.
  split; [vm_compute; reflexivity|]. split; [vm_compute; reflexivity|].
  split.
  - intros k. replace (all_keys sample_html)
      with [of_string "title"; of_string "search"] by (vm_compute; reflexivity).
    simpl. intuition.
  - repeat split; vm_compute; reflexivity.
Qed.

(** C9: the empty text is never a required key: an attribute written
    with the empty value has no match where it starts, for the group asks
    for at least one character between the quotes. *)
Theorem empty_value_is_no_key (html_content : str) :
  (~ In [] (translate_matches html_content)
   /\ ~ In [] (placeholder_matches html_content))
  /\ ~ In [] (all_keys html_content)
  /\ ~ In [] (sorted_keys html_content)
  /\ (forall rest,
        match_here translate_pattern
          (of_string "data-translate=" ++ dquote :: dquote :: rest) = None
        /\ match_here placeholder_pattern
             (of_string "data-translate-placeholder=" ++ dquote :: dquote
              :: rest) = None)
  /\ translate_matches (of_string "data-translate=" ++ [dquote; dquote]) = []
  /\ placeholder_matches
       (of_string "data-translate-placeholder=" ++ [dquote; dquote]) = [].
Proof.
  assert (Ht : ~ In [] (translate_matches html_content)).
  { intros H. apply translate_matches_In in H. now destruct H as (_ & H & _). }
  assert (Hp : ~ In [] (placeholder_matches html_content)).
  { intros H. apply placeholder_matches_In in H.
    now destruct H as (_ & H & _). }
  assert (Ha : ~ In [] (all_keys html_content)).
  { rewrite all_keys_In. tauto. }
  split; [now split|]. split; [exact Ha|].
  split; [now rewrite sorted_keys_In|].
  split; [intros rest; split; apply attr_empty_value|].
  split; vm_compute; reflexivity.
Qed.

(** C10: every key a language defines is a non-empty run of word
    characters; the hyphen and the dot are not word characters; so a
    required key with a character that is not a word character is defined
    by no language, and is in the missing list of every language whose
    block is found. *)
Theorem defined_keys_are_words
    (unicode_alnum : char -> bool) (l : locale)
    (script_content : str) (keys : list str) :
  loc_keys unicode_alnum l script_content = Some keys ->
  (forall k, In k keys ->
             k <> [] /\ Forall (fun c => is_word unicode_alnum c = true) k)
  /\ is_word unicode_alnum 45 = false
  /\ is_word unicode_alnum 46 = false
  /\ (forall html_content k,
        In k (sorted_keys html_content) ->
        (exists c, In c k /\ is_word unicode_alnum c = false) ->
        ~ In k keys
        /\ exists r,
             check_locale unicode_alnum l (sorted_keys html_content)
               script_content = Some r
             /\ In k (missing r)).
Proof.
  unfold loc_keys, loc_content.
  destruct (loc_match l script_content) as [[content rest]|] eqn:E;
    [|discriminate].
  simpl. intros [= <-].
  assert (Hw : forall k, In k (content_keys unicode_alnum content) ->
            k <> [] /\ Forall (fun c => is_word unicode_alnum c = true) k).
  { intros k Hk. now apply content_keys_In in Hk. }
  split; [exact Hw|]. split; [reflexivity|]. split; [reflexivity|].
  intros html_content k Hk (c & Hc & Hnot).
  assert (Hout : ~ In k (content_keys unicode_alnum content)).
  { intros Hin. apply Hw in Hin. destruct Hin as (_ & Hin).
    rewrite Forall_forall in Hin. rewrite (Hin c Hc) in Hnot. discriminate. }
  split; [exact Hout|].
  unfold check_locale. rewrite E. eexists. split; [reflexivity|].
  simpl. now apply missing_keys_In.
Qed.

Lemma defined_keys_are_words_witness :
  loc_keys no_alnum en sample_script = Some [of_string "title"]
  /\ (forall k, In k [of_string "title"] ->
                k <> [] /\ Forall (fun c => is_word no_alnum c = true) k)
  /\ is_word no_alnum 45 = false
  /\ is_word no_alnum 46 = false
  /\ (forall html_content k,
        In k (sorted_keys html_content) ->
        (exists c, In c k /\ is_word no_alnum c = false) ->
        ~ In k [of_string "title"]
        /\ exists r,
             check_locale no_alnum en (sorted_keys html_content)
               sample_script = Some r
             /\ In k (missing r)).
Proof.
  split; [vm_compute; reflexivity|].
  apply (defined_keys_are_words no_alnum en sample_script
           [of_string "title"]).
  vm_compute; reflexivity.
Defined.

(** The page with the key [nav-title], against the sample table: the key
    is reported missing. *)
Example hyphen_key_missing :
  sorted_keys hyphen_html = [of_string "nav-title"]
  /\ check_locale no_alnum en (sorted_keys hyphen_html) sample_script
     = Some (Report 1 [of_string "nav-title"] false).
Proof. split; vm_compute; reflexivity. Qed.

(** * Further properties of the script *)

(** ** The listing of the required keys (lines 17-24) *)

(** An ascending list is determined by its elements. *)
Lemma sorted_unique (l1 l2 : list str) :
  StronglySorted str_le l1 -> StronglySorted str_le l2 ->
  Permutation l1 l2 -> l1 = l2.
Proof.
  intros H1. revert l2. induction H1 as [|h1 t1 Ht1 IH Hh1]; intros l2 H2 HP.
  - apply Permutation_nil in HP. now subst.
  - destruct H2 as [|h2 t2 Ht2 Hh2].
    + apply Permutation_sym, Permutation_nil in HP. discriminate.
    + assert (E : h1 = h2).
      { assert (In1 : In h1 (h2 :: t2))
          by (apply (Permutation_in _ HP); now left).
        assert (In2 : In h2 (h1 :: t1))
          by (apply (Permutation_in _ (Permutation_sym HP)); now left).
        destruct In1 as [E|In1]; [now symmetry|].
        destruct In2 as [E|In2]; [exact E|].
        rewrite Forall_forall in Hh1, Hh2.
        apply str_leb_antisym; [apply (Hh1 _ In2)|apply (Hh2 _ In1)]. }
      subst h2. f_equal. apply IH; [exact Ht2|].
      now apply Permutation_cons_inv with h1.
Qed.

Lemma sorted_permutation_eq (l l' : list str) :
  Permutation l l' -> sorted l = sorted l'.
Proof.
  intros HP. apply sorted_unique; try apply sorted_sorted.
  rewrite (sorted_perm l), (sorted_perm l'). exact HP.
Qed.

(** X1: the list [sorted_keys] does not depend on the order in which the
    set of line 17 is walked: sorting any enumeration without repetition
    of the keys matched by either pattern gives [sorted_keys]. *)
Theorem sorted_keys_order_independent (html_content : str)
    (elems : list str) :
  NoDup elems ->
  (forall k, In k elems
             <-> In k (translate_matches html_content)
                 \/ In k (placeholder_matches html_content)) ->
  sorted elems = sorted_keys html_content.
Proof.
  intros Hnd Hel. unfold sorted_keys. apply sorted_permutation_eq.
  apply NoDup_Permutation; [exact Hnd|apply all_keys_NoDup|].
  intros k. now rewrite Hel, all_keys_In.
Qed.

Lemma sorted_keys_order_independent_witness :
  NoDup [of_string "search"; of_string "title"]
  /\ all_keys sample_html = [of_string "title"; of_string "search"]
  /\ sorted [of_string "search"; of_string "title"]
     = sorted_keys sample_html.
Proof.
  assert (Hnd : NoDup [of_string "search"; of_string "title"]).
  { constructor; [|constructor; [intros []|constructor]].
    intros [E|[]]. discriminate. }
  split; [exact Hnd|]. split; [vm_compute; reflexivity|].
  apply (sorted_keys_order_independent sample_html _ Hnd).
  intros k.
  replace (translate_matches sample_html) with [of_string "title"]
    by (vm_compute; reflexivity).
  replace (placeholder_matches sample_html) with [of_string "search"]
    by (vm_compute; reflexivity).
  simpl. tauto.
Defined.

Lemma sorted_length (l : list str) : List.length (sorted l) = List.length l.
Proof. apply Permutation_length, sorted_perm. Qed.

(** X2: the output starts with the header, one line for each required key
    in strictly ascending order, the total and the announcement of the
    check.  The total printed is the number of distinct keys matched; it is
    at most the number of matches of the two patterns, and equals it
    exactly when no key is matched twice. *)
Theorem listing_and_total (unicode_alnum : char -> bool)
    (html_content script_content : str) :
  (exists stanzas,
     main unicode_alnum html_content script_content
     = KeysHeader :: map KeyLine (sorted_keys html_content)
       ++ Total (List.length (all_keys html_content)) :: Checking :: stanzas
     /\ forall ln, In ln stanzas ->
                   ln <> KeysHeader /\ ln <> Checking
                   /\ forall n, ln <> Total n)
  /\ StronglySorted str_lt (sorted_keys html_content)
  /\ (List.length (all_keys html_content)
      <= List.length (translate_matches html_content)
         + List.length (placeholder_matches html_content))%nat
  /\ (List.length (all_keys html_content)
      = (List.length (translate_matches html_content)
         + List.length (placeholder_matches html_content))%nat
      <-> NoDup (translate_matches html_content
                 ++ placeholder_matches html_content)).
Proof.
  split; [|split; [apply sorted_keys_strict|]].
  - eexists. split.
    + unfold main. cbv zeta. unfold sorted_keys at 2.
      rewrite sorted_length. simpl. reflexivity.
    + intros ln Hln.
      repeat (apply in_app_or in Hln; destruct Hln as [Hln|Hln]);
        apply print_locale_lines in Hln;
        destruct Hln as (r & _ & [->|[[-> _]|[[-> _]|(k & -> & _)]]]);
        repeat split; intros; discriminate.
  - unfold all_keys. rewrite <- length_app. split.
    + apply nodup_length_le.
    + apply nodup_length_eq.
Qed.

(** ** When a block is found (lines 34-36, 56-58, 78-80) *)

Lemma search_some (r : regex) (pre t : str) (m : str * str) :
  match_here r t = Some m -> exists m', search r (pre ++ t) = Some m'.
Proof.
  intros H. destruct (search r (pre ++ t)) as [m'|] eqn:E; [eauto|].
  rewrite (search_none _ _ E pre t eq_refl) in H. discriminate.
Qed.

Lemma space_not_brace (ws : str) :
  Forall (fun c => is_space c = true) ws ->
  ~ In lbrace ws /\ ~ In rbrace ws /\ ~ In colon ws.
Proof.
  intros H. rewrite Forall_forall in H.
  repeat split; intros Hin; apply H in Hin; discriminate.
Qed.

Lemma label_chars (l : locale) :
  exists a b,
    of_string (label l) = [a; b]
    /\ a <> colon /\ b <> colon
    /\ ~ In lbrace [a; b] /\ ~ In rbrace [a; b].
Proof.
  destruct l; eexists; eexists; (split; [reflexivity|]);
    repeat split; try discriminate; intros [E|[E|[]]]; discriminate.
Qed.

(** X3: a language has a report exactly when the text has, somewhere, its
    label, a colon, white space or nothing, an opening brace, at least one
    character other than a closing brace, and a closing brace.  So a table
    written with nothing between its braces, and no closing brace after
    it, is not found: the language has no report. *)
Theorem report_iff_block (unicode_alnum : char -> bool) (l : locale)
    (required : list str) (script_content : str) :
  ((exists r,
      check_locale unicode_alnum l required script_content = Some r)
   <-> exists pre ws body rest,
         script_content
         = pre ++ of_string (label l) ++ colon :: ws ++ lbrace :: body
           ++ rbrace :: rest
         /\ Forall (fun c => is_space c = true) ws
         /\ body <> [] /\ ~ In rbrace body)
  /\ (forall ws tail,
        Forall (fun c => is_space c = true) ws -> ~ In rbrace tail ->
        check_locale unicode_alnum l required
          (of_string (label l) ++ colon :: ws ++ lbrace :: rbrace :: tail)
        = None).
Proof.
  split.
  - split.
    + intros (r & Hr). apply check_locale_inv in Hr.
      destruct Hr as (content & rest & Hm & _).
      apply loc_match_span in Hm. destruct Hm as (pre & ws & Hm).
      now exists pre, ws, content, rest.
    + intros (pre & ws & body & rest & -> & Hws & Hne & Hb).
      destruct (search_some (loc_pattern l) pre _ _
                  (loc_match_here_intro l ws body rest Hws Hne Hb))
        as ([content rest'] & Hs).
      unfold check_locale, loc_match. rewrite Hs. eauto.
  - intros ws tail Hws Htail. apply check_locale_none.
    destruct (loc_match l _) as [[content rest]|] eqn:E; [|reflexivity].
    exfalso. apply loc_match_span in E.
    destruct E as (pre & ws' & E & Hws' & Hne & Hb).
    destruct (label_chars l) as (a & b & Hlab & _ & _ & Hlb & Hrb).
    rewrite Hlab in E.
    destruct (space_not_brace _ Hws) as (Hwl & Hwr & _).
    destruct (space_not_brace _ Hws') as (_ & Hwr' & _).
    assert (Hhead : ~ In rbrace ([a; b] ++ colon :: ws ++ [lbrace])).
    { intros Hin. apply in_app_or in Hin. destruct Hin as [Hin|Hin];
        [contradiction|].
      destruct Hin as [Hin|Hin]; [discriminate|].
      apply in_app_or in Hin. destruct Hin as [Hin|[Hin|[]]];
        [contradiction|discriminate]. }
    assert (Hhead' : ~ In rbrace ([a; b] ++ colon :: ws' ++ lbrace :: content)).
    { intros Hin. apply in_app_or in Hin. destruct Hin as [Hin|Hin];
        [contradiction|].
      destruct Hin as [Hin|Hin]; [discriminate|].
      apply in_app_or in Hin. destruct Hin as [Hin|[Hin|Hin]];
        [contradiction|discriminate|contradiction]. }
    assert (Hsplit :
      ([a; b] ++ colon :: ws ++ [lbrace]) ++ rbrace :: tail
      = (pre ++ [a; b] ++ colon :: ws' ++ lbrace :: content)
        ++ rbrace :: rest).
    { rewrite <- !app_assoc. simpl. rewrite <- !app_assoc. simpl.
      simpl in E. exact E. }
    (* the text has one closing brace, the one after [content] *)
    assert (Hleft0 :
      ~ In rbrace (pre ++ [a; b] ++ colon :: ws' ++ lbrace :: content)).
    { pose proof (f_equal (fun t => count_occ N.eq_dec t rbrace) Hsplit)
        as Hc.
      cbv beta in Hc. rewrite !count_occ_pivot in Hc.
      rewrite (proj1 (count_occ_not_In N.eq_dec _ rbrace) Hhead) in Hc.
      rewrite (proj1 (count_occ_not_In N.eq_dec _ rbrace) Htail) in Hc.
      injection Hc as Hc. symmetry in Hc. apply Nat.eq_add_0 in Hc.
      apply (count_occ_not_In N.eq_dec). exact (proj1 Hc). }
    apply app_pivot in Hsplit; [|exact Hhead|exact Hleft0].
    destruct Hsplit as [Hleft _].
    { destruct (exists_last Hne) as (body0 & x & Hbody).
      rewrite Hbody in Hleft.
      assert (Hleft' :
        ([a; b] ++ colon :: ws) ++ [lbrace]
        = (pre ++ [a; b] ++ colon :: ws' ++ lbrace :: body0) ++ [x]).
      { rewrite <- !app_assoc. simpl. rewrite <- !app_assoc. simpl.
        simpl in Hleft. exact Hleft. }
      apply app_inj_tail in Hleft'. destruct Hleft' as [Hleft' _].
      assert (Hin : In lbrace ([a; b] ++ colon :: ws)).
      { rewrite Hleft'. apply in_or_app. right. apply in_or_app. right.
        right. apply in_or_app. right. now left. }
      apply in_app_or in Hin. destruct Hin as [Hin|[Hin|Hin]];
        [contradiction|discriminate|contradiction]. }
Qed.

(** X4: in a text that has no colon before the label, the block found is
    the one that follows the label: its text runs up to the first closing
    brace, and what comes after that brace, later tables with the same
    label included, plays no part in the keys of the language. *)
Theorem first_block_found (unicode_alnum : char -> bool) (l : locale)
    (pre ws body tail : str) :
  ~ In colon pre ->
  Forall (fun c => is_space c = true) ws ->
  body <> [] -> ~ In rbrace body ->
  loc_match l (pre ++ of_string (label l) ++ colon :: ws ++ lbrace :: body
               ++ rbrace :: tail)
  = Some (body, tail)
  /\ loc_keys unicode_alnum l
       (pre ++ of_string (label l) ++ colon :: ws ++ lbrace :: body
        ++ rbrace :: tail)
     = Some (content_keys unicode_alnum body).
Proof.
  intros Hpre Hws Hne Hb.
  assert (Hm : loc_match l (pre ++ of_string (label l) ++ colon :: ws
                            ++ lbrace :: body ++ rbrace :: tail)
               = Some (body, tail)).
  { unfold loc_match. apply search_intro.
    - intros p q -> Hq.
      destruct (match_here (loc_pattern l) _) as [[c r]|] eqn:E;
        [|reflexivity].
      exfalso. apply loc_match_here_inv in E. destruct E as (ws' & E & _).
      destruct (label_chars l) as (a & b & Hlab & Ha & Hb' & _).
      rewrite Hlab in E. simpl in E.
      assert (Hq' : ~ In colon q).
      { intros Hin. apply Hpre. apply in_or_app. now right. }
      destruct q as [|q1 [|q2 [|q3 q]]]; simpl in E.
      + now elim Hq.
      + injection E as _ _ E _. now elim Hb'.
      + injection E as _ _ E _. now elim Ha.
      + injection E as _ _ E _. apply Hq'. subst q3. simpl. tauto.
    - now apply loc_match_here_intro. }
  split; [exact Hm|]. now apply loc_keys_content with tail.
Qed.

Lemma first_block_found_witness :
  (~ In colon (of_string "const translations = { ")
   /\ Forall (fun c => is_space c = true) (of_string " ")
   /\ of_string " title: 1 " <> []
   /\ ~ In rbrace (of_string " title: 1 "))
  /\ loc_match en
       (of_string "const translations = { " ++ of_string (label en)
        ++ colon :: of_string " " ++ lbrace :: of_string " title: 1 "
        ++ rbrace :: of_string ", en: { other: 2 } };")
     = Some (of_string " title: 1 ", of_string ", en: { other: 2 } };")
  /\ loc_keys no_alnum en
       (of_string "const translations = { " ++ of_string (label en)
        ++ colon :: of_string " " ++ lbrace :: of_string " title: 1 "
        ++ rbrace :: of_string ", en: { other: 2 } };")
     = Some (content_keys no_alnum (of_string " title: 1 ")).
Proof.
  assert (H1 : ~ In colon (of_string "const translations = { "))
    by (vm_compute; intuition discriminate).
  assert (H2 : Forall (fun c => is_space c = true) (of_string " "))
    by (repeat constructor).
  assert (H3 : of_string " title: 1 " <> []) by discriminate.
  assert (H4 : ~ In rbrace (of_string " title: 1 "))
    by (vm_compute; intuition discriminate).
  split; [auto|].
  exact (first_block_found no_alnum en _ _ _
           (of_string ", en: { other: 2 } };") H1 H2 H3 H4).
Defined.

(** ** The keys of a block (lines 38, 60, 82) *)

(** A greedy run that cannot be followed by the rest of the pattern at any
    of its places fails. *)
Lemma greedy_none (p : char -> bool) (g : bool) k (w : str) (c : char)
    (t : str) :
  Forall (fun y => forall s, k (y :: s) = None) w ->
  p c = false -> k (c :: t) = None ->
  greedy p g k (w ++ c :: t) = None.
Proof.
  intros Hw Hc Hk. induction Hw as [|y w Hy _ IH]; simpl.
  - now rewrite Hc.
  - rewrite IH. destruct (p y); apply Hy.
Qed.

(** The value of a group [p+] followed by a literal [d] that is not in
    [p], on a text whose run of [p] ends at [c]. *)
Lemma run_then_eval (p : char -> bool) (d : char) (w : str) (c : char)
    (t : str) :
  p d = false -> Forall (fun y => p y = true) w -> p c = false ->
  match_here [Item p Plus true; lit_char d] (w ++ c :: t)
  = match w with
    | [] => None
    | _ :: _ => if d =? c then Some (w, t) else None
    end.
Proof.
  intros Hd Hw Hc. destruct w as [|y w]; simpl; [now rewrite Hc|].
  inversion_clear Hw as [|? ? Hy Hw']. rewrite Hy.
  destruct (N.eqb_spec d c) as [<-|Hdc].
  - rewrite (greedy_run p true _ w (d :: t) [] t Hw').
    + now rewrite app_nil_r.
    + simpl. now rewrite N.eqb_refl.
    + now intros c0 t0 [= <- _].
  - rewrite greedy_none; auto.
    + eapply Forall_impl; [|exact Hw']. intros x Hx s. simpl.
      destruct (N.eqb_spec d x) as [<-|]; [congruence|reflexivity].
    + simpl. destruct (N.eqb_spec d c); [contradiction|reflexivity].
Qed.

(** The longest prefix in a class, when some character is outside it. *)
Lemma class_prefix (p : char -> bool) (s : str) (x : char) :
  In x s -> p x = false ->
  exists w c t,
    s = w ++ c :: t /\ Forall (fun y => p y = true) w /\ p c = false.
Proof.
  induction s as [|y s IH]; intros Hin Hx; [contradiction|].
  destruct (p y) eqn:Hy.
  - destruct Hin as [->|Hin]; [congruence|].
    destruct (IH Hin Hx) as (w & c & t & -> & Hw & Hc).
    exists (y :: w), c, t. auto.
  - exists [], y, s. auto.
Qed.

Section BlockKeys.

Variable unicode_alnum : char -> bool.

Lemma colon_not_word : is_word unicode_alnum colon = false.
Proof. reflexivity. Qed.

(** A match of the key pattern is settled by the text up to the first
    character that is not a word character. *)
Lemma key_match_app (s b : str) (x : char) :
  In x s -> is_word unicode_alnum x = false ->
  match_here (key_pattern unicode_alnum) (s ++ b)
  = match match_here (key_pattern unicode_alnum) s with
    | Some (cap, rest) => Some (cap, rest ++ b)
    | None => None
    end.
Proof.
  intros Hin Hx.
  destruct (class_prefix _ _ _ Hin Hx) as (w & c & t & -> & Hw & Hc).
  replace ((w ++ c :: t) ++ b) with (w ++ c :: (t ++ b))
    by (now rewrite <- app_assoc).
  unfold key_pattern.
  rewrite (run_then_eval _ colon w c (t ++ b) colon_not_word Hw Hc).
  rewrite (run_then_eval _ colon w c t colon_not_word Hw Hc).
  destruct w; [reflexivity|]. now destruct (colon =? c).
Qed.

Lemma findall_from_cons (r : regex) (c : char) (s : str) :
  findall_from r O (c :: s)
  = match match_here r (c :: s) with
    | Some (cap, rest) =>
        cap :: findall_from r
                 (List.length (c :: s) - List.length rest - 1)%nat s
    | None => findall_from r O s
    end.
Proof. reflexivity. Qed.

(** A text that is empty or ends with a character that is not a word
    character: a key cannot run across its end. *)
Lemma findall_key_app (a b : str) (n : nat) :
  (a = [] \/ exists a0 x, a = a0 ++ [x] /\ is_word unicode_alnum x = false) ->
  (n <= List.length a)%nat ->
  findall_from (key_pattern unicode_alnum) n (a ++ b)
  = findall_from (key_pattern unicode_alnum) n a
    ++ findall (key_pattern unicode_alnum) b.
Proof.
  revert n. induction a as [|c a IH]; intros n Hcl Hn.
  - destruct n; [reflexivity|simpl in Hn; lia].
  - assert (Hcl' : a = [] \/ exists a0 x,
              a = a0 ++ [x] /\ is_word unicode_alnum x = false).
    { destruct Hcl as [E|(a0 & x & E & Hx)]; [discriminate|].
      destruct a0 as [|c0 a0]; simpl in E; injection E as -> E.
      - now left.
      - right. now exists a0, x. }
    destruct n as [|n].
    + assert (Hx : exists x, In x (c :: a)
                             /\ is_word unicode_alnum x = false).
      { destruct Hcl as [E|(a0 & x & E & Hx)]; [discriminate|].
        exists x. split; [|exact Hx]. rewrite E. apply in_or_app.
        right. now left. }
      destruct Hx as (x & Hin & Hx).
      rewrite (findall_from_cons _ c a).
      change ((c :: a) ++ b) with (c :: (a ++ b)).
      rewrite (findall_from_cons _ c (a ++ b)).
      change (c :: (a ++ b)) with ((c :: a) ++ b).
      rewrite (key_match_app _ b x Hin Hx).
      destruct (match_here (key_pattern unicode_alnum) (c :: a))
        as [[cap rest]|] eqn:E.
      * cbn [app]. f_equal.
        destruct (match_here_suffix _ _ _ _ E) as (m & Hm).
        assert (Hlen : List.length (c :: a)
                       = (List.length m + List.length rest)%nat)
          by (rewrite Hm; apply length_app).
        assert (Hca : List.length (c :: a) = S (List.length a))
          by reflexivity.
        replace (List.length (c :: a ++ b) - List.length (rest ++ b) - 1)%nat
          with (List.length (c :: a) - List.length rest - 1)%nat
          by (cbn [List.length] in *; rewrite !length_app; lia).
        apply IH; [exact Hcl'|lia].
      * apply IH; [exact Hcl'|lia].
    + simpl. apply IH; [exact Hcl'|simpl in Hn; lia].
Qed.

(** X5: the keys of a block are found piece by piece: when a piece is
    empty or ends with a character that is not a word character (a comma,
    a line end, a quote, a colon), the keys of the piece followed by more
    text are the keys of the piece, then the keys of the rest. *)
Theorem content_keys_app (a b : str) :
  (a = [] \/ exists a0 x, a = a0 ++ [x] /\ is_word unicode_alnum x = false) ->
  content_keys unicode_alnum (a ++ b)
  = content_keys unicode_alnum a ++ content_keys unicode_alnum b.
Proof.
  intros Hcl. unfold content_keys, findall.
  apply findall_key_app; [exact Hcl|lia].
Qed.

End BlockKeys.

Lemma content_keys_app_witness :
  (exists a0 x, of_string "a: 1," = a0 ++ [x] /\ is_word no_alnum x = false)
  /\ content_keys no_alnum (of_string "a: 1," ++ of_string " b: 2")
     = content_keys no_alnum (of_string "a: 1,")
       ++ content_keys no_alnum (of_string " b: 2")
  /\ content_keys no_alnum (of_string "a: 1," ++ of_string " b: 2")
     = [of_string "a"; of_string "b"].
Proof.
  assert (H : exists a0 x,
            of_string "a: 1," = a0 ++ [x] /\ is_word no_alnum x = false)
    by (exists (of_string "a: 1"), 44; split; reflexivity).
  split; [exact H|]. split; [|vm_compute; reflexivity].
  exact (content_keys_app no_alnum (of_string "a: 1,") (of_string " b: 2")
           (or_intror H)).
Defined.

(** X6: every run of word characters that starts the block, or comes after
    a character that is not a word character, and is followed at once by a
    colon is a key of the block, also when it stands inside a value: the
    keys of the text are the keys before it, the run, and the keys after
    its colon. *)
Theorem word_before_colon_is_key (unicode_alnum : char -> bool)
    (u w v : str) :
  (u = [] \/ exists u0 x, u = u0 ++ [x] /\ is_word unicode_alnum x = false) ->
  w <> [] -> Forall (fun c => is_word unicode_alnum c = true) w ->
  content_keys unicode_alnum (u ++ w ++ colon :: v)
  = content_keys unicode_alnum u ++ w :: content_keys unicode_alnum v
  /\ In w (content_keys unicode_alnum (u ++ w ++ colon :: v)).
Proof.
  intros Hu Hne Hw.
  assert (E : content_keys unicode_alnum (u ++ w ++ colon :: v)
              = content_keys unicode_alnum u
                ++ w :: content_keys unicode_alnum v).
  { unfold content_keys, findall at 1.
    rewrite findall_key_app by (auto; lia). f_equal.
    replace (w ++ colon :: v) with ((w ++ [colon]) ++ v)
      by (now rewrite <- app_assoc).
    apply findall_match.
    - intros H. apply app_eq_nil in H. destruct H as [_ H]. discriminate.
    - rewrite <- app_assoc. simpl. unfold key_pattern.
      apply run_then_intro; auto using colon_not_word. }
  split; [exact E|]. rewrite E. apply in_or_app. right. now left.
Qed.

Lemma word_before_colon_is_key_witness :
  ((exists u0 x,
      of_string " url: <" = u0 ++ [x] /\ is_word no_alnum x = false)
   /\ of_string "http" <> []
   /\ Forall (fun c => is_word no_alnum c = true) (of_string "http"))
  /\ content_keys no_alnum
       (of_string " url: <" ++ of_string "http" ++ colon :: of_string "//x>")
     = content_keys no_alnum (of_string " url: <")
       ++ of_string "http" :: content_keys no_alnum (of_string "//x>")
  /\ In (of_string "http")
        (content_keys no_alnum
           (of_string " url: <" ++ of_string "http" ++ colon
            :: of_string "//x>")).
Proof.
  assert (H1 : exists u0 x,
            of_string " url: <" = u0 ++ [x] /\ is_word no_alnum x = false)
    by (exists (of_string " url: "), 60; split; reflexivity).
  assert (H2 : of_string "http" <> []) by discriminate.
  assert (H3 : Forall (fun c => is_word no_alnum c = true) (of_string "http"))
    by (repeat constructor).
  split; [auto|].
  exact (word_before_colon_is_key no_alnum (of_string " url: <")
           (of_string "http") (of_string "//x>") (or_intror H1) H2 H3).
Defined.

(** ** The missing keys (lines 43-46, 65-68, 87-90) *)

Lemma filter_length_split (f : str -> bool) (l : list str) :
  (List.length (filter f l) + List.length (filter (fun k => negb (f k)) l)
   = List.length l)%nat.
Proof.
  induction l as [|k l IH]; simpl; [reflexivity|].
  destruct (f k); simpl; lia.
Qed.

Lemma filter_length_all (f : str -> bool) (l : list str) :
  List.length (filter f l) = List.length l
  <-> forall k, In k l -> f k = true.
Proof.
  induction l as [|k l IH]; simpl; [tauto|].
  pose proof (filter_length_le f l) as Hle.
  destruct (f k) eqn:Hk; simpl.
  - split.
    + intros E k' [<-|Hin]; [exact Hk|]. apply IH; [lia|exact Hin].
    + intros H. f_equal. apply IH. auto.
  - split; [lia|]. intros H. rewrite (H k) in Hk by auto. discriminate.
Qed.

Lemma filter_nil_iff (f : str -> bool) (l : list str) :
  filter f l = [] <-> forall k, In k l -> f k = false.
Proof.
  induction l as [|k l IH]; simpl; [tauto|].
  destruct (f k) eqn:Hk.
  - split; [discriminate|]. intros H. rewrite (H k) in Hk by auto.
    discriminate.
  - rewrite IH. split.
    + intros H k' [<-|Hin]; auto.
    + auto.
Qed.

Lemma absent_true (keys : list str) (k : str) :
  absent keys k = true <-> ~ In k keys.
Proof.
  unfold absent. destruct (in_dec str_eq_dec k keys); split; intros H;
    try discriminate; try reflexivity; try assumption; contradiction.
Qed.

Lemma absent_false (keys : list str) (k : str) :
  absent keys k = false <-> In k keys.
Proof.
  unfold absent. destruct (in_dec str_eq_dec k keys); split; intros H;
    try discriminate; try reflexivity; try assumption; contradiction.
Qed.

(** X7: for a language whose block is found, the required keys split into
    the missing ones and the defined ones, so the number of missing keys is
    at most the number of required keys; all required keys are missing
    exactly when the block defines none of them, and none is missing
    exactly when it defines them all. *)
Theorem missing_count (unicode_alnum : char -> bool) (l : locale)
    (required : list str) (script_content : str) (r : locale_report) :
  check_locale unicode_alnum l required script_content = Some r ->
  exists keys,
    loc_keys unicode_alnum l script_content = Some keys
    /\ (List.length (missing r)
        + List.length (filter (fun k => negb (absent keys k)) required)
        = List.length required)%nat
    /\ (List.length (missing r) <= List.length required)%nat
    /\ (List.length (missing r) = List.length required
        <-> forall k, In k required -> ~ In k keys)
    /\ (missing r = [] <-> forall k, In k required -> In k keys).
Proof.
  intros H. apply check_locale_inv in H.
  destruct H as (content & rest & Hm & _ & Hmiss & _).
  exists (content_keys unicode_alnum content).
  split; [now apply loc_keys_content with rest|].
  rewrite Hmiss, missing_keys_filter.
  split; [apply filter_length_split|]. split; [apply filter_length_le|].
  split.
  - rewrite filter_length_all. split; intros H k Hk;
      now apply absent_true, H.
  - rewrite filter_nil_iff. split; intros H k Hk;
      now apply absent_false, H.
Qed.

Lemma missing_count_witness :
  check_locale no_alnum en (sorted_keys sample_html) sample_script
  = Some (Report 1 [of_string "search"] false)
  /\ exists keys,
       loc_keys no_alnum en sample_script = Some keys
       /\ (1 + List.length (filter (fun k => negb (absent keys k))
                              (sorted_keys sample_html))
           = List.length (sorted_keys sample_html))%nat
       /\ (1 <= List.length (sorted_keys sample_html))%nat
       /\ (1%nat = List.length (sorted_keys sample_html)
           <-> forall k, In k (sorted_keys sample_html) -> ~ In k keys)
       /\ ([of_string "search"] = []
           <-> forall k, In k (sorted_keys sample_html) -> In k keys).
Proof.
  split; [vm_compute; reflexivity|].
  apply (missing_count no_alnum en (sorted_keys sample_html) sample_script
           (Report 1 [of_string "search"] false)).
  vm_compute; reflexivity.
Defined.

(** X8: the missing list depends on which keys the block defines, not on
    how often or in what order it writes them, and it shrinks when keys are
    added: with more keys defined, the new missing list is the old one with
    the newly defined keys taken out, in the same order. *)
Theorem missing_keys_more_defined (required keys keys' : list str) :
  (forall k, In k keys -> In k keys') ->
  missing_keys required keys'
  = filter (absent keys') (missing_keys required keys)
  /\ (forall k, In k (missing_keys required keys') ->
                In k (missing_keys required keys))
  /\ ((forall k, In k keys' -> In k keys) ->
      missing_keys required keys' = missing_keys required keys)
  /\ missing_keys required (nodup str_eq_dec keys)
     = missing_keys required keys
  /\ missing_keys required (rev keys) = missing_keys required keys.
Proof.
  intros Hincl. rewrite !missing_keys_filter.
  assert (Hfilter : filter (absent keys') required
                    = filter (absent keys') (filter (absent keys) required)).
  { induction required as [|k req IH]; simpl; [reflexivity|].
    destruct (absent keys' k) eqn:E'.
    - assert (E : absent keys k = true).
      { apply absent_true. intros Hin. apply absent_true in E'. auto. }
      rewrite E. simpl. rewrite E'. now f_equal.
    - destruct (absent keys k); simpl; [rewrite E'|]; exact IH. }
  assert (Hext : forall ks ks' : list str,
            (forall k, In k ks <-> In k ks') ->
            filter (absent ks) required = filter (absent ks') required).
  { intros ks ks' H. apply filter_ext. intros k.
    destruct (absent ks' k) eqn:E.
    - apply absent_true. apply absent_true in E. now rewrite H.
    - apply absent_false. apply absent_false in E. now rewrite H. }
  split; [exact Hfilter|]. split; [|split; [|split]].
  - intros k Hk. apply filter_In in Hk. destruct Hk as [Hk Ha].
    apply filter_In. split; [exact Hk|].
    apply absent_true. apply absent_true in Ha. auto.
  - intros Hincl'. apply Hext. intros k. split; auto.
  - apply Hext. intros k. apply nodup_In.
  - apply Hext. intros k. symmetry. apply in_rev.
Qed.

Lemma missing_keys_more_defined_witness :
  (forall k, In k [of_string "title"] ->
             In k [of_string "title"; of_string "search"; of_string "title"])
  /\ missing_keys [of_string "search"; of_string "title"; of_string "zoom"]
       [of_string "title"; of_string "search"; of_string "title"]
     = filter (absent [of_string "title"; of_string "search";
                       of_string "title"])
         (missing_keys
            [of_string "search"; of_string "title"; of_string "zoom"]
            [of_string "title"])
  /\ missing_keys [of_string "search"; of_string "title"; of_string "zoom"]
       [of_string "title"; of_string "search"; of_string "title"]
     = [of_string "zoom"].
Proof.
  assert (H : forall k, In k [of_string "title"] ->
              In k [of_string "title"; of_string "search";
                    of_string "title"])
    by (intros k [<-|[]]; now left).
  split; [exact H|]. split; [|vm_compute; reflexivity].
  exact (proj1 (missing_keys_more_defined
                  [of_string "search"; of_string "title"; of_string "zoom"]
                  [of_string "title"]
                  [of_string "title"; of_string "search"; of_string "title"]
                  H)).
Defined.

(** ** The lines of a language in the output (lines 36-53, 58-75, 80-97) *)

(** The lines of a stanza are lines of the output. *)
Lemma main_stanza_in (unicode_alnum : char -> bool) (l : locale)
    (html_content script_content : str) (ln : line) :
  In ln (print_locale l
           (check_locale unicode_alnum l (sorted_keys html_content)
              script_content)) ->
  In ln (main unicode_alnum html_content script_content).
Proof.
  intros H. unfold main. cbv zeta. right.
  apply in_or_app. right. apply in_or_app. right.
  destruct l.
  - apply in_or_app. now left.
  - apply in_or_app. right. apply in_or_app. now left.
  - apply in_or_app. right. apply in_or_app. now right.
Qed.

(** A line of the output that names a language is a line of the stanza of
    that language. *)
Lemma main_stanza_out (unicode_alnum : char -> bool) (l : locale)
    (html_content script_content : str) (ln : line) :
  In ln (main unicode_alnum html_content script_content) ->
  ((exists n, ln = KeysFound l n) \/ (exists n, ln = MissingHeader l n)
   \/ ln = AllTranslated l) ->
  In ln (print_locale l
           (check_locale unicode_alnum l (sorted_keys html_content)
              script_content)).
Proof.
  intros H Hl. unfold main in H. cbv zeta in H.
  destruct H as [<-|H];
    [destruct Hl as [(n & E)|[(n & E)|E]]; discriminate|].
  assert (Hst : forall l',
    In ln (print_locale l'
             (check_locale unicode_alnum l' (sorted_keys html_content)
                script_content)) ->
    l' = l).
  { intros l' Hin. apply print_locale_lines in Hin.
    destruct Hin as (r & _ & [->|[[-> _]|[[-> _]|(k & -> & _)]]]);
      destruct Hl as [(n & E)|[(n & E)|E]]; congruence. }
  repeat (apply in_app_or in H; destruct H as [H|H]).
  - apply in_map_iff in H. destruct H as (k & <- & _).
    destruct Hl as [(n & E)|[(n & E)|E]]; discriminate.
  - destruct H as [<-|[<-|[]]];
      destruct Hl as [(n & E)|[(n & E)|E]]; discriminate.
  - now rewrite <- (Hst en H).
  - now rewrite <- (Hst es H).
  - now rewrite <- (Hst pl H).
Qed.

(** X9: what the output says of a language.  The count of defined keys is
    printed exactly when the block is found, and is the number of matches
    in the block.  The header of the missing keys is printed exactly when
    the block is found and some required key is missing; its number is the
    number of missing keys, at least one and at most the total printed in
    the listing.  The header of the missing keys and the message of a full
    translation are never both printed for one language. *)
Theorem stanza_lines (unicode_alnum : char -> bool) (l : locale)
    (html_content script_content : str) :
  (forall n,
     In (KeysFound l n) (main unicode_alnum html_content script_content)
     <-> exists keys,
           loc_keys unicode_alnum l script_content = Some keys
           /\ n = List.length keys)
  /\ (forall n,
        In (MissingHeader l n)
           (main unicode_alnum html_content script_content)
        <-> exists r,
              check_locale unicode_alnum l (sorted_keys html_content)
                script_content = Some r
              /\ n = List.length (missing r) /\ (1 <= n)%nat)
  /\ (forall n,
        In (MissingHeader l n)
           (main unicode_alnum html_content script_content) ->
        (n <= List.length (all_keys html_content))%nat
        /\ In (Total (List.length (all_keys html_content)))
              (main unicode_alnum html_content script_content))
  /\ ~ (In (AllTranslated l)
           (main unicode_alnum html_content script_content)
        /\ exists n,
             In (MissingHeader l n)
                (main unicode_alnum html_content script_content)).
Proof.
  assert (Hmh : forall n,
    In (MissingHeader l n) (main unicode_alnum html_content script_content)
    <-> exists r,
          check_locale unicode_alnum l (sorted_keys html_content)
            script_content = Some r
          /\ n = List.length (missing r) /\ (1 <= n)%nat).
  { intros n. split.
    - intros H. apply (main_stanza_out _ l) in H; [|eauto].
      apply print_locale_lines in H. destruct H as (r & Hr & H).
      destruct H as [H|[[H _]|[[H Hc]|(k & H & _)]]]; try discriminate.
      injection H as ->. exists r. split; [exact Hr|]. split; [reflexivity|].
      pose proof (complete_iff _ _ _ _ _ Hr) as Hiff.
      destruct (missing r); [|simpl; lia].
      rewrite (proj2 Hiff eq_refl) in Hc. discriminate.
    - intros (r & Hr & -> & Hn). apply (main_stanza_in _ l). rewrite Hr.
      simpl. destruct (complete r) eqn:Hc; [|right; now left].
      apply (complete_iff _ _ _ _ _ Hr) in Hc. rewrite Hc in Hn.
      simpl in Hn. lia. }
  split; [|split; [exact Hmh|split]].
  - intros n. split.
    + intros H. apply (main_stanza_out _ l) in H; [|eauto].
      apply print_locale_lines in H. destruct H as (r & Hr & H).
      destruct H as [H|[[H _]|[[H _]|(k & H & _)]]]; try discriminate.
      injection H as ->. apply check_locale_inv in Hr.
      destruct Hr as (content & rest & Hm & Hcount & _).
      exists (content_keys unicode_alnum content).
      split; [now apply loc_keys_content with rest|exact Hcount].
    + intros (keys & Hk & ->). apply (main_stanza_in _ l).
      unfold loc_keys, loc_content in Hk. unfold check_locale.
      destruct (loc_match l script_content) as [[content rest]|];
        [|discriminate].
      simpl in Hk. injection Hk as <-. simpl. now left.
  - intros n H. split.
    + apply Hmh in H. destruct H as (r & Hr & -> & _).
      apply check_locale_inv in Hr.
      destruct Hr as (content & rest & _ & _ & -> & _).
      rewrite missing_keys_filter. unfold sorted_keys.
      rewrite <- (sorted_length (all_keys html_content)).
      apply filter_length_le.
    + unfold main. cbv zeta. right. apply in_or_app. right.
      unfold sorted_keys. rewrite sorted_length. now left.
  - intros (Hall & n & Hn). apply Hmh in Hn.
    destruct Hn as (r & Hr & -> & Hn).
    apply AllTranslated_in_main in Hall. destruct Hall as (r' & Hr' & Hc).
    rewrite Hr in Hr'. injection Hr' as <-.
    apply (complete_iff _ _ _ _ _ Hr) in Hc. rewrite Hc in Hn.
    simpl in Hn. lia.
Qed.

(** X10: the message of a full translation is printed for a language
    exactly when its block is found and every key matched by one of the
    two attribute patterns in the page is among the keys of the block. *)
Theorem full_translation_iff (unicode_alnum : char -> bool) (l : locale)
    (html_content script_content : str) :
  In (AllTranslated l) (main unicode_alnum html_content script_content)
  <-> exists keys,
        loc_keys unicode_alnum l script_content = Some keys
        /\ forall k,
             In k (translate_matches html_content)
             \/ In k (placeholder_matches html_content) ->
             In k keys.
Proof.
  rewrite AllTranslated_in_main. split.
  - intros (r & Hr & Hc). apply (complete_iff _ _ _ _ _ Hr) in Hc.
    apply check_locale_inv in Hr.
    destruct Hr as (content & rest & Hm & _ & Hmiss & _).
    exists (content_keys unicode_alnum content).
    split; [now apply loc_keys_content with rest|].
    intros k Hk. apply all_keys_In, sorted_keys_In in Hk.
    destruct (in_dec str_eq_dec k (content_keys unicode_alnum content))
      as [Hin|Hout]; [exact Hin|].
    assert (Hin : In k (missing r))
      by (rewrite Hmiss; now apply missing_keys_In).
    rewrite Hc in Hin. contradiction.
  - intros (keys & Hk & Hall).
    unfold loc_keys, loc_content in Hk. unfold check_locale.
    destruct (loc_match l script_content) as [[content rest]|];
      [|discriminate].
    simpl in Hk. injection Hk as <-. eexists. split; [reflexivity|].
    simpl.
    assert (E : missing_keys (sorted_keys html_content)
                  (content_keys unicode_alnum content) = []).
    { rewrite missing_keys_filter. apply filter_nil_iff. intros k Hk.
      apply absent_false, Hall. now apply all_keys_In, sorted_keys_In. }
    now rewrite E.
Qed.

(** ** What is not taken for a key *)

(** X11: a run of word characters that is followed by anything but a
    colon is not a key, and the scan goes on after it: a key written with
    a space before its colon, or a key written between quotes, is not
    found. *)
Theorem key_needs_adjacent_colon (unicode_alnum : char -> bool)
    (w : str) (c : char) (t : str) :
  Forall (fun y => is_word unicode_alnum y = true) w ->
  is_word unicode_alnum c = false -> c <> colon ->
  content_keys unicode_alnum (w ++ c :: t) = content_keys unicode_alnum t.
Proof.
  intros Hw Hc Hcolon. unfold content_keys.
  assert (Hnone : forall w',
    Forall (fun y => is_word unicode_alnum y = true) w' ->
    match_here (key_pattern unicode_alnum) (w' ++ c :: t) = None).
  { intros w' Hw'. unfold key_pattern.
    rewrite (run_then_eval _ colon w' c t (colon_not_word _) Hw' Hc).
    destruct w'; [reflexivity|].
    destruct (N.eqb_spec colon c); [congruence|reflexivity]. }
  induction Hw as [|y w Hy Hw IH].
  - apply findall_cons_none. apply (Hnone []). constructor.
  - simpl app. rewrite findall_cons_none; [exact IH|].
    apply (Hnone (y :: w)). now constructor.
Qed.

Lemma key_needs_adjacent_colon_witness :
  (Forall (fun y => is_word no_alnum y = true) (of_string "title")
   /\ is_word no_alnum dquote = false /\ dquote <> colon)
  /\ content_keys no_alnum
       (of_string "title" ++ dquote :: of_string ": 1, b: 2")
     = content_keys no_alnum (of_string ": 1, b: 2")
  /\ content_keys no_alnum
       (dquote :: of_string "title" ++ dquote :: of_string ": 1, b: 2")
     = [of_string "b"].
Proof.
  assert (H1 : Forall (fun y => is_word no_alnum y = true)
                 (of_string "title")) by (repeat constructor).
  assert (H2 : is_word no_alnum dquote = false) by reflexivity.
  assert (H3 : dquote <> colon) by discriminate.
  split; [auto|]. split; [|vm_compute; reflexivity].
  exact (key_needs_adjacent_colon no_alnum (of_string "title") dquote
           (of_string ": 1, b: 2") H1 H2 H3).
Defined.

(** X12: an attribute whose value does not open with a double quote, as
    one written with single quotes or without quotes, gives no key where
    it stands: the scan goes on at the character after the equals sign. *)
Theorem unquoted_attribute_is_no_key (c : char) (rest : str) :
  c <> dquote ->
  translate_matches (of_string "data-translate=" ++ c :: rest)
  = translate_matches (c :: rest)
  /\ placeholder_matches
       (of_string "data-translate-placeholder=" ++ c :: rest)
     = placeholder_matches (c :: rest).
Proof.
  intros Hc.
  assert (Hhead : forall name : string,
    match_here (lit name ++ [lit_char dquote]
                ++ [Item (not_char dquote) Plus true] ++ [lit_char dquote])
      (of_string name ++ c :: rest) = None).
  { intros name.
    destruct (match_here _ _) as [[cap r]|] eqn:E; [|reflexivity].
    apply attr_match_inv in E. destruct E as (E & _).
    apply app_inv_head in E. injection E as E _. congruence. }
  split.
  - unfold translate_matches.
    pose proof (Hhead "data-translate="%string) as H0.
    change (lit "data-translate=" ++ _) with translate_pattern in H0.
    let t := eval vm_compute in (of_string "data-translate=") in
      change (of_string "data-translate=") with t in *.
    cbn [app] in *.
    rewrite (findall_cons_none _ _ _ H0).
    do 14 (rewrite findall_cons_none at 1 by reflexivity). reflexivity.
  - unfold placeholder_matches.
    pose proof (Hhead "data-translate-placeholder="%string) as H0.
    change (lit "data-translate-placeholder=" ++ _)
      with placeholder_pattern in H0.
    let t := eval vm_compute in (of_string "data-translate-placeholder=") in
      change (of_string "data-translate-placeholder=") with t in *.
    cbn [app] in *.
    rewrite (findall_cons_none _ _ _ H0).
    do 26 (rewrite findall_cons_none at 1 by reflexivity). reflexivity.
Qed.

Lemma unquoted_attribute_is_no_key_witness :
  39 <> dquote
  /\ translate_matches (of_string "data-translate=" ++ 39 :: of_string "title'>")
     = translate_matches (39 :: of_string "title'>")
  /\ translate_matches (of_string "data-translate=" ++ 39 :: of_string "title'>")
     = [].
Proof.
  assert (H : 39 <> dquote) by discriminate.
  split; [exact H|]. split; [|vm_compute; reflexivity].
  exact (proj1 (unquoted_attribute_is_no_key 39 (of_string "title'>") H)).
Defined.
